(** * minbpe/basic.py: the byte-level BPE tokenizer [BasicTokenizer]

    A shallow embedding of [BasicTokenizer] (training in its three
    strategies, [encode], [decode]) together with the two helpers it imports
    from [minbpe/base.py] and the Python, numpy and torch primitives it
    calls.

    Conventions.
    - A token id is a Python [int]: a [Z].  A byte is a [Z] in [0, 256).
    - A Python [str] is a list of code points ([list Z]).
    - [merges] is a dict read only by key: [gmap (Z * Z) Z].
      [vocab] likewise: [gmap Z (list Z)].
    - [stats] is a dict that is iterated ([max], [min]): an association
      list, in an order that the model chooses (see [get_stats]).
    - An exception is [Raise e]; a loop that ran out of fuel is [NoFuel]
      (only [encode]'s [while] loop takes fuel).
    - The progress prints of the training loops are not modelled, nor is
      the [verbose] flag, which only adds prints. *)

From Stdlib Require Import ZArith List Lia Bool.
From stdpp Require Import base option list sorting gmap fin_maps.

Local Open Scope Z_scope.

(** ** Exceptions and results *)

Inductive error : Type :=
  | AssertionError
  | UnicodeEncodeError
  | ValueError          (* max()/min()/numpy.argmax of an empty sequence *)
  | IndexError          (* torch.argmax of an empty tensor, mask of a wrong length *)
  | KeyError (k : Z).   (* dict lookup of an absent key *)

Inductive result (A : Type) : Type :=
  | Ok (a : A)
  | Raise (e : error)
  | NoFuel.

Arguments Ok {A} a.
Arguments Raise {A} e.
Arguments NoFuel {A}.

#[export] Instance result_ret : MRet result := fun A a => Ok a.
#[export] Instance result_bind : MBind result := fun A B f m =>
  match m with
  | Ok a => f a
  | Raise e => Raise e
  | NoFuel => NoFuel
  end.

Definition is_Ok {A} (r : result A) : bool :=
  match r with Ok _ => true | _ => false end.

(** ** UTF-8: [str.encode("utf-8")] and [bytes.decode("utf-8", errors="replace")] *)

Module Utf8.

(** U+FFFD, the replacement character. *)
Definition REPLACEMENT : Z := 65533.

(** A Unicode scalar value: a code point that is not a surrogate. *)
Definition is_scalar (c : Z) : Prop :=
  (0 <= c < 55296) \/ (57344 <= c <= 1114111).

Definition in_range (lo hi b : Z) : bool := (lo <=? b) && (b <=? hi).

(** A continuation byte, 0x80..0xBF. *)
Definition is_cont (b : Z) : bool := in_range 128 191 b.

(** The bytes of one code point.  A surrogate cannot be encoded; a value
    outside [0, 0x10FFFF] is no code point of a Python [str] and is
    refused the same way. *)
Definition encode_cp (c : Z) : result (list Z) :=
  if c <? 0 then Raise UnicodeEncodeError
  else if c <? 128 then Ok [c]
  else if c <? 2048 then Ok [192 + c / 64; 128 + c mod 64]
  else if c <? 65536 then
    if in_range 55296 57343 c then Raise UnicodeEncodeError
    else Ok [224 + c / 4096; 128 + (c / 64) mod 64; 128 + c mod 64]
  else if c <=? 1114111 then
    Ok [240 + c / 262144; 128 + (c / 4096) mod 64;
        128 + (c / 64) mod 64; 128 + c mod 64]
  else Raise UnicodeEncodeError.

(** [text.encode("utf-8")] *)
Fixpoint encode (text : list Z) : result (list Z) :=
  match text with
  | [] => Ok []
  | c :: rest =>
      bs ← encode_cp c;
      bs' ← encode rest;
      Ok (bs ++ bs')
  end.

(** The range allowed for the second byte after lead byte [b0]: the
    ranges that exclude overlong forms, surrogates and values above
    U+10FFFF. *)
Definition second_lo (b0 : Z) : Z :=
  if b0 =? 224 then 160 else if b0 =? 240 then 144 else 128.
Definition second_hi (b0 : Z) : Z :=
  if b0 =? 237 then 159 else if b0 =? 244 then 143 else 191.

(** [bs.decode("utf-8", errors="replace")]: a well-formed sequence gives
    its code point; otherwise U+FFFD stands for the longest prefix of a
    well-formed sequence found so far (at least one byte), and decoding
    resumes at the byte that broke it. *)
Fixpoint decode (bs : list Z) : list Z :=
  match bs with
  | [] => []
  | b0 :: r0 =>
      if in_range 0 127 b0 then b0 :: decode r0
      else if in_range 194 223 b0 then
        match r0 with
        | [] => [REPLACEMENT]
        | b1 :: r1 =>
            if is_cont b1
            then ((b0 - 192) * 64 + (b1 - 128)) :: decode r1
            else REPLACEMENT :: decode r0
        end
      else if in_range 224 239 b0 then
        match r0 with
        | [] => [REPLACEMENT]
        | b1 :: r1 =>
            if in_range (second_lo b0) (second_hi b0) b1 then
              match r1 with
              | [] => [REPLACEMENT]
              | b2 :: r2 =>
                  if is_cont b2
                  then ((b0 - 224) * 4096 + (b1 - 128) * 64 + (b2 - 128))
                         :: decode r2
                  else REPLACEMENT :: decode r1
              end
            else REPLACEMENT :: decode r0
        end
      else if in_range 240 244 b0 then
        match r0 with
        | [] => [REPLACEMENT]
        | b1 :: r1 =>
            if in_range (second_lo b0) (second_hi b0) b1 then
              match r1 with
              | [] => [REPLACEMENT]
              | b2 :: r2 =>
                  if is_cont b2 then
                    match r2 with
                    | [] => [REPLACEMENT]
                    | b3 :: r3 =>
                        if is_cont b3
                        then ((b0 - 240) * 262144 + (b1 - 128) * 4096
                              + (b2 - 128) * 64 + (b3 - 128)) :: decode r3
                        else REPLACEMENT :: decode r2
                    end
                  else REPLACEMENT :: decode r1
              end
            else REPLACEMENT :: decode r0
        end
      else REPLACEMENT :: decode r0
  end.

End Utf8.

(** ** Python builtins used on dicts *)

(** [max(keys, key=f)]: the first element whose key is not exceeded by a
    later one; [ValueError] on an empty iterable. *)
Fixpoint py_max_from {A} (f : A → Z) (best : A) (l : list A) : A :=
  match l with
  | [] => best
  | x :: rest =>
      if f best <? f x then py_max_from f x rest else py_max_from f best rest
  end.

Definition py_max {A} (f : A → Z) (l : list A) : result A :=
  match l with
  | [] => Raise ValueError
  | x :: rest => Ok (py_max_from f x rest)
  end.

(** The keys [merges.get(p, float("inf"))] of [encode]: [None] is [inf]. *)
Definition rank_lt (a b : option Z) : bool :=
  match a, b with
  | Some x, Some y => x <? y
  | Some _, None => true
  | None, _ => false
  end.

(** [min(keys, key=f)]: the first element with the least key. *)
Fixpoint py_min_from {A} (f : A → option Z) (best : A) (l : list A) : A :=
  match l with
  | [] => best
  | x :: rest =>
      if rank_lt (f x) (f best) then py_min_from f x rest
      else py_min_from f best rest
  end.

Definition py_min {A} (f : A → option Z) (l : list A) : result A :=
  match l with
  | [] => Raise ValueError
  | x :: rest => Ok (py_min_from f x rest)
  end.

(** ** The helpers imported from [minbpe/base.py] *)

(** The adjacent pairs [(ids[i], ids[i+1])], [zip(ids, ids[1:])]. *)
Definition adjacent_pairs (ids : list Z) : list (Z * Z) := zip ids (drop 1 ids).

(** [counts[pair] = counts.get(pair, 0) + 1] on a dict kept in insertion
    order. *)
Fixpoint count_pair (counts : list ((Z * Z) * Z)) (p : Z * Z) : list ((Z * Z) * Z) :=
  match counts with
  | [] => [(p, 1)]
  | (q, c) :: rest =>
      if bool_decide (q = p) then (q, c + 1) :: rest
      else (q, c) :: count_pair rest p
  end.

(** Modelled from the spec: [get_stats] of [minbpe/base.py], which is not
    among the sources.  Section 4.1: the mapping from each adjacent pair
    [(seq[i], seq[i+1])], [i] in [0, n-2], to the number of its occurrences,
    pairs without an occurrence being absent.  Section 4.1 does not say in
    which order the mapping holds its keys.  The callers iterate over it
    ([max] in [train], [min] in [encode]), so the model has to hold them in
    some order: it takes that of a dict filled in one pass over [i], the
    order of first occurrence.  This order is a choice of the model, not
    a statement of the spec; it only decides which of several keys with
    the same count (or the same rank) [max] and [min] return. *)
Definition get_stats (ids : list Z) : list ((Z * Z) * Z) :=
  foldl count_pair [] (adjacent_pairs ids).

(** [stats.get]: the count of a key of [stats], Python's [None] otherwise
    (never compared: [max] only asks for keys of [stats]). *)
Fixpoint stats_get (stats : list ((Z * Z) * Z)) (p : Z * Z) : Z :=
  match stats with
  | [] => 0
  | (q, c) :: rest => if bool_decide (q = p) then c else stats_get rest p
  end.

(** Modelled from the spec: [merge] of [minbpe/base.py], which is not among
    the sources.  Section 4.3: one greedy left-to-right scan without
    overlap; where the current and the next element are the pair, emit
    [idx] and advance by two, otherwise emit the current element and
    advance by one. *)
Fixpoint merge (ids : list Z) (pair : Z * Z) (idx : Z) : list Z :=
  match ids with
  | a :: (b :: rest) as tl =>
      if bool_decide (a = pair.1) && bool_decide (b = pair.2)
      then idx :: merge rest pair idx
      else a :: merge tl pair idx
  | _ => ids
  end.

(** ** numpy / torch primitives of the array strategies *)

(** [stack((ids[:-1], ids[1:]), axis=1)]: the rows of adjacent pairs. *)
Definition np_pairs (ids : list Z) : list (Z * Z) :=
  zip (take (length ids - 1)%nat ids) (drop 1 ids).

(** Rows are compared lexicographically, left column first. *)
Definition pair_ltb (p q : Z * Z) : bool :=
  (p.1 <? q.1) || ((p.1 =? q.1) && (p.2 <? q.2)).

Definition pair_lt (p q : Z * Z) : Prop :=
  p.1 < q.1 \/ (p.1 = q.1 /\ p.2 < q.2).

Fixpoint unique_insert (p : Z * Z) (u : list ((Z * Z) * Z)) : list ((Z * Z) * Z) :=
  match u with
  | [] => [(p, 1)]
  | (q, c) :: rest =>
      if pair_ltb p q then (p, 1) :: u
      else if bool_decide (p = q) then (q, c + 1) :: rest
      else (q, c) :: unique_insert p rest
  end.

(** [unique(pairs, return_counts=True, axis=0)]: the distinct rows in
    ascending lexicographic order, each with its number of occurrences. *)
Definition np_unique_counts (rows : list (Z * Z)) : list ((Z * Z) * Z) :=
  foldr unique_insert [] rows.

Fixpoint argmax_from (best_i : nat) (best : Z) (i : nat) (l : list Z) : nat :=
  match l with
  | [] => best_i
  | x :: rest =>
      if best <? x then argmax_from i x (S i) rest
      else argmax_from best_i best (S i) rest
  end.

(** [argmax(counts)]: the index of the first maximal entry; an error on an
    empty array ([ValueError] in numpy, an [IndexError] in torch). *)
Definition argmax (on_empty : error) (l : list Z) : result nat :=
  match l with
  | [] => Raise on_empty
  | x :: rest => Ok (argmax_from 0 x 1 rest)
  end.

(** [roll(mask, 1)]: the last entry moves to the front. *)
Definition roll1 (mask : list bool) : list bool :=
  match mask with
  | [] => []
  | _ => drop (length mask - 1)%nat mask ++ take (length mask - 1)%nat mask
  end.

(** [a[mask]]: the entries of [a] where [mask] holds. *)
Fixpoint select_mask (mask : list bool) (a : list Z) : list Z :=
  match mask, a with
  | m :: mask', x :: a' =>
      if m then x :: select_mask mask' a' else select_mask mask' a'
  | _, _ => []
  end.

(** [a[mask] = v] *)
Definition assign_mask (mask : list bool) (v : Z) (a : list Z) : list Z :=
  zip_with (λ (m : bool) x, if m then v else x) mask a.

(** The pair picked by an array strategy: rows, [unique], [argmax],
    [unique[pair_index]]. *)
Definition array_choose (on_empty : error) (ids : list Z) : result (Z * Z) :=
  let pairs := np_pairs ids in
  let uc := np_unique_counts pairs in
  pair_index ← argmax on_empty (uc.*2);
  match uc.*1 !! pair_index with
  | Some row => Ok row
  | None => Raise IndexError
  end.

(** The mask-based removal of the array strategies:
    [mask = all(pairs == pair, axis=1)], [mask = append(mask, False)],
    [ids[mask] = idx], [ids = ids[~roll(mask, 1)]]. *)
Definition mask_merge (ids : list Z) (pair : Z * Z) (idx : Z) : list Z :=
  let pairs := np_pairs ids in
  let mask := (λ q, bool_decide (q = pair)) <$> pairs in
  let mask := mask ++ [false] in
  let ids := assign_mask mask idx ids in
  select_mask (negb <$> roll1 mask) ids.

(** ** BasicTokenizer *)

(** The two class variables set by training. *)
Record tokenizer : Type := Tokenizer {
  merges : gmap (Z * Z) Z;      (* (int, int) -> int *)
  vocab : gmap Z (list Z)       (* int -> bytes *)
}.

(** The variables of a training loop. *)
Record train_state : Type := TrainState {
  ts_ids : list Z;
  ts_merges : gmap (Z * Z) Z;
  ts_vocab : gmap Z (list Z)
}.

(** [{idx: bytes([idx]) for idx in range(256)}] *)
Definition seed_vocab : gmap Z (list Z) :=
  list_to_map ((λ idx, (idx, [idx])) <$> seqZ 0 256).

Arguments seed_vocab : simpl never.

(** [vocab[k]] *)
Definition vocab_get (v : gmap Z (list Z)) (k : Z) : result (list Z) :=
  match v !! k with
  | Some bs => Ok bs
  | None => Raise (KeyError k)
  end.

Section Trainer.
(** The two places where the strategies differ: how the pair of an
    iteration is picked from [ids], and how it is replaced in [ids]. *)
Variable choose : list Z → result (Z * Z).
Variable replace : list Z → Z * Z → Z → list Z.

(** The body of [for i in range(num_merges)]. *)
Definition train_iter (i : nat) (st : train_state) : result train_state :=
  pair ← choose (ts_ids st);
  let idx := 256 + Z.of_nat i in
  let ids := replace (ts_ids st) pair idx in
  let merges := <[pair := idx]> (ts_merges st) in
  l ← vocab_get (ts_vocab st) pair.1;
  r ← vocab_get (ts_vocab st) pair.2;
  Ok (TrainState ids merges (<[idx := l ++ r]> (ts_vocab st))).

(** [n] iterations from index [i] on. *)
Fixpoint train_loop (n : nat) (i : nat) (st : train_state) : result train_state :=
  match n with
  | O => Ok st
  | S n' => st' ← train_iter i st; train_loop n' (S i) st'
  end.

Definition train_init (ids : list Z) : train_state :=
  TrainState ids ∅ seed_vocab.

Definition train_with (text : list Z) (vocab_size : Z) : result tokenizer :=
  if vocab_size <? 256 then Raise AssertionError
  else
    let num_merges := vocab_size - 256 in
    ids ← Utf8.encode text;
    st ← train_loop (Z.to_nat num_merges) 0 (train_init ids);
    Ok (Tokenizer (ts_merges st) (ts_vocab st)).
End Trainer.

(** [pair = max(stats, key=stats.get)] over [stats = get_stats(ids)]. *)
Definition train_choose (ids : list Z) : result (Z * Z) :=
  let stats := get_stats ids in
  py_max (stats_get stats) stats.*1.

(** [BasicTokenizer.train] *)
Definition train : list Z → Z → result tokenizer :=
  train_with train_choose merge.

(** [BasicTokenizer.train_vectorized] *)
Definition train_vectorized : list Z → Z → result tokenizer :=
  train_with (array_choose ValueError) mask_merge.

(** The first loop of [train_gpu]: only [ids] and [merge_pairs] evolve. *)
Fixpoint gpu_loop (n : nat) (i : nat) (ids : list Z) (merge_pairs : list (Z * Z))
  : result (list (Z * Z)) :=
  match n with
  | O => Ok merge_pairs
  | S n' =>
      pair ← array_choose IndexError ids;
      let ids := mask_merge ids pair (Z.of_nat i + 256) in
      gpu_loop n' (S i) ids (<[i := pair]> merge_pairs)
  end.

(** [{tuple(pair.tolist()): j + 256 for j, pair in enumerate(merge_pairs)}] *)
Definition gpu_merges (merge_pairs : list (Z * Z)) : gmap (Z * Z) Z :=
  foldl (λ m jp, <[jp.2 := Z.of_nat jp.1 + 256]> m) ∅ (imap pair merge_pairs).

(** The second loop of [train_gpu], which rebuilds the vocabulary. *)
Fixpoint gpu_vocab_loop (n : nat) (i : nat) (merge_pairs : list (Z * Z))
    (v : gmap Z (list Z)) : result (gmap Z (list Z)) :=
  match n with
  | O => Ok v
  | S n' =>
      match merge_pairs !! i with
      | None => Raise IndexError
      | Some row =>
          let idx := 256 + Z.of_nat i in
          l ← vocab_get v row.1;
          r ← vocab_get v row.2;
          gpu_vocab_loop n' (S i) merge_pairs (<[idx := l ++ r]> v)
      end
  end.

(** [BasicTokenizer.train_gpu], on a device that holds its tensors: the
    creation of [ids] and [merge_pairs] and their transfer ([.cuda()]),
    which come after the assertion and the encoding of the text, are
    taken to succeed.  A run that returns is not affected; a run of the
    code can also fail there, with an error of the device, where the
    model goes on. *)
Definition train_gpu (text : list Z) (vocab_size : Z) : result tokenizer :=
  if vocab_size <? 256 then Raise AssertionError
  else
    let num_merges := Z.to_nat (vocab_size - 256) in
    ids ← Utf8.encode text;
    merge_pairs ← gpu_loop num_merges 0 ids (replicate num_merges (0, 0));
    let merges := gpu_merges merge_pairs in
    v ← gpu_vocab_loop num_merges 0 merge_pairs seed_vocab;
    Ok (Tokenizer merges v).

(** [b"".join(self.vocab[idx] for idx in ids)] *)
Fixpoint join_vocab (v : gmap Z (list Z)) (ids : list Z) : result (list Z) :=
  match ids with
  | [] => Ok []
  | idx :: rest =>
      bs ← vocab_get v idx;
      bs' ← join_vocab v rest;
      Ok (bs ++ bs')
  end.

(** [BasicTokenizer.decode] *)
Definition decode (tok : tokenizer) (ids : list Z) : result (list Z) :=
  text_bytes ← join_vocab (vocab tok) ids;
  Ok (Utf8.decode text_bytes).

(** The [while len(ids) >= 2] loop of [encode]; [fuel] bounds the number
    of iterations. *)
Fixpoint encode_loop (fuel : nat) (m : gmap (Z * Z) Z) (ids : list Z) : result (list Z) :=
  if 2 <=? Z.of_nat (length ids) then
    match fuel with
    | O => NoFuel
    | S fuel' =>
        let stats := get_stats ids in
        pair ← py_min (λ p, m !! p) stats.*1;
        match m !! pair with
        | None => Ok ids
        | Some idx => encode_loop fuel' m (merge ids pair idx)
        end
    end
  else Ok ids.

(** [BasicTokenizer.encode]; the loop is given as many iterations as there
    are bytes. *)
Definition encode (tok : tokenizer) (text : list Z) : result (list Z) :=
  ids ← Utf8.encode text;
  encode_loop (length ids) (merges tok) ids.

(** ** Vocabulary of the statements

    The notions the properties below are stated with, and the sample
    inputs they are run on. *)

(** The encoder as section 4.6 words it: stop when no adjacent pair is a
    key of the merge table (or fewer than two tokens are left); otherwise
    merge an adjacent pair whose id in the table is the least among the
    adjacent pairs that are keys, and go on. *)
Inductive greedy_encoding (m : gmap (Z * Z) Z) : list Z → list Z → Prop :=
  | greedy_stop ids :
      ((length ids < 2)%nat ∨ ∀ q, q ∈ adjacent_pairs ids → m !! q = None) →
      greedy_encoding m ids ids
  | greedy_merge ids pair idx out :
      pair ∈ adjacent_pairs ids →
      m !! pair = Some idx →
      (∀ q j, q ∈ adjacent_pairs ids → m !! q = Some j → idx ≤ j) →
      greedy_encoding m (merge ids pair idx) out →
      greedy_encoding m ids out.

Definition abc_table : tokenizer :=
  Tokenizer (<[(256, 99) := 257]> (<[(97, 98) := 256]> ∅)) seed_vocab.

(** Ids [0 .. 255] map to their own byte. *)
Definition seeded (v : gmap Z (list Z)) : Prop :=
  ∀ b, 0 ≤ b < 256 → v !! b = Some [b].

(** Every merge of the table has its expansion in the vocabulary: the
    bytes of the new id are those of the left id followed by those of the
    right id. *)
Definition learned (m : gmap (Z * Z) Z) (v : gmap Z (list Z)) : Prop :=
  ∀ L R id, m !! (L, R) = Some id →
    ∃ l r, v !! L = Some l ∧ v !! R = Some r ∧ v !! id = Some (l ++ r).

(** What holds of the loop variables at the start of iteration [i]. *)
Record train_inv (i : nat) (st : train_state) : Prop := TrainInv {
  inv_dom : ∀ id, is_Some (ts_vocab st !! id) ↔ 0 ≤ id < 256 + Z.of_nat i;
  inv_seeded : seeded (ts_vocab st);
  inv_size : size (ts_vocab st) = (256 + i)%nat;
  inv_learned : learned (ts_merges st) (ts_vocab st)
}.

(** The pairs the first loop of [train_gpu] writes, in order. *)
Fixpoint array_picks (n : nat) (i : nat) (ids : list Z) : result (list (Z * Z)) :=
  match n with
  | O => Ok []
  | S n' =>
      p ← array_choose IndexError ids;
      ps ← array_picks n' (S i) (mask_merge ids p (Z.of_nat i + 256));
      Ok (p :: ps)
  end.

(** The dict comprehension of [train_gpu], from index [i] on. *)
Definition gpu_insert (m : gmap (Z * Z) Z) (jp : nat * (Z * Z)) : gmap (Z * Z) Z :=
  <[jp.2 := Z.of_nat jp.1 + 256]> m.

Definition is_byte (b : Z) : Prop := 0 ≤ b < 256.

(** What [decode] returns without a replacement character encodes back to
    the bytes it was given. *)
Definition replaced_or_wellformed (bs : list Z) : Prop :=
  Utf8.REPLACEMENT ∈ Utf8.decode bs ∨ Utf8.encode (Utf8.decode bs) = Ok bs.

Inductive strategy : Type := Sequential | Vectorized | Gpu.

Definition train_by (s : strategy) : list Z → Z → result tokenizer :=
  match s with
  | Sequential => train
  | Vectorized => train_vectorized
  | Gpu => train_gpu
  end.

(** The growth of the vocabulary over a run of trainer [T] that returned
    [tok]: one entry per merge on top of the 256 seeds; iteration [i]
    adds the one entry [256 + i], which was absent before, as the bytes of
    the left id followed by the bytes of the right id of the pair it
    merges; and the vocabulary of every shorter run is contained in the
    final one, so no entry is ever changed after it is set. *)
Definition vocabulary_grown (T : list Z → Z → result tokenizer)
    (text : list Z) (vocab_size : Z) (tok : tokenizer) : Prop :=
  let k := Z.to_nat (vocab_size - 256) in
  size (vocab tok) = (256 + k)%nat
  ∧ seeded (vocab tok)
  ∧ (∀ i, (i < k)%nat →
       ∃ before after L R l r,
         T text (256 + Z.of_nat i) = Ok before
         ∧ T text (256 + Z.of_nat (S i)) = Ok after
         ∧ vocab before !! (256 + Z.of_nat i) = None
         ∧ merges after = <[(L, R) := 256 + Z.of_nat i]> (merges before)
         ∧ vocab after = <[256 + Z.of_nat i := l ++ r]> (vocab before)
         ∧ vocab tok !! L = Some l ∧ vocab tok !! R = Some r
         ∧ vocab tok !! (256 + Z.of_nat i) = Some (l ++ r))
  ∧ (∀ j, (j ≤ k)%nat →
       ∃ tok_j, T text (256 + Z.of_nat j) = Ok tok_j
                ∧ vocab tok_j ⊆ vocab tok).

(** The text of the spec's scenario, ["aaabdaaabac"], and the tokenizer
    that [train] learns from it with three merges. *)
Definition scenario_text : list Z := [97; 97; 97; 98; 100; 97; 97; 97; 98; 97; 99].

Definition scenario_tokenizer : tokenizer :=
  match train scenario_text 259 with
  | Ok tok => tok
  | _ => Tokenizer ∅ ∅
  end.

(** The number of occurrences of pair [p] among the adjacent pairs [l]. *)
Fixpoint occurrences (p : Z * Z) (l : list (Z * Z)) : Z :=
  match l with
  | [] => 0
  | q :: rest => (if bool_decide (q = p) then 1 else 0) + occurrences p rest
  end.

(** The mask-based removal as one scan: [keep] tells whether the current
    element survives (it does not when the pair started just before it);
    an element that starts the pair is overwritten by [idx]. *)
Fixpoint mask_scan (pair : Z * Z) (idx : Z) (keep : bool) (ids : list Z) : list Z :=
  match ids with
  | [] => []
  | a :: rest =>
      let hit := match rest with
                 | b :: _ => bool_decide ((a, b) = pair)
                 | [] => false
                 end in
      (if keep then [if hit then idx else a] else [])
        ++ mask_scan pair idx (negb hit) rest
  end.

(** No two occurrences of [pair] in [ids] share an element. *)
Definition no_overlap (pair : Z * Z) (ids : list Z) : Prop :=
  ∀ pre a b c suf, ids = pre ++ a :: b :: c :: suf →
    ¬ ((a, b) = pair ∧ (b, c) = pair).

(** What else holds of the loop variables at the start of iteration [i]:
    the ids of the sequence are below the next id to mint; the two ids of
    a learned pair are below the id it was given; no learned pair occurs
    in the sequence any more; the
    merge table maps its [i] keys one-to-one onto [256 .. 256 + i - 1];
    every entry of the vocabulary is a non-empty sequence of bytes, of at
    least two bytes for a merged id. *)
Record merge_inv (i : nat) (st : train_state) : Prop := MergeInv {
  mi_ids : ∀ x, x ∈ ts_ids st → 0 ≤ x < 256 + Z.of_nat i;
  mi_keys : ∀ p id, ts_merges st !! p = Some id →
      (p ∉ adjacent_pairs (ts_ids st))
      ∧ 0 ≤ p.1 < id ∧ 0 ≤ p.2 < id
      ∧ 256 ≤ id < 256 + Z.of_nat i;
  mi_inj : ∀ p q id,
      ts_merges st !! p = Some id → ts_merges st !! q = Some id → p = q;
  mi_onto : ∀ id, 256 ≤ id < 256 + Z.of_nat i →
      ∃ p, ts_merges st !! p = Some id;
  mi_size : size (ts_merges st) = i;
  mi_entries : ∀ id bs, ts_vocab st !! id = Some bs →
      bs ≠ [] ∧ Forall is_byte bs ∧ (256 ≤ id → (2 ≤ length bs)%nat)
}.

(** The loop variables of [train] on the scenario text after its three
    merges. *)
Definition scenario_state : train_state :=
  match train_loop train_choose merge 3 0 (train_init scenario_text) with
  | Ok st => st
  | _ => train_init []
  end.

(** [max(stats, key=stats.get)] when the dict of [get_stats] is iterated
    in another order: [reorder] rearranges its items.  The order is fixed
    by [minbpe/base.py], which is not among the sources; [train_choose] is
    the case where it is the order of first occurrence. *)
Definition train_choose_in_order
    (reorder : list ((Z * Z) * Z) → list ((Z * Z) * Z)) (ids : list Z)
  : result (Z * Z) :=
  let stats := get_stats ids in
  py_max (stats_get stats) (reorder stats).*1.

(** [BasicTokenizer.train] under that order of the dict. *)
Definition train_in_order (reorder : list ((Z * Z) * Z) → list ((Z * Z) * Z))
  : list Z → Z → result tokenizer :=
  train_with (train_choose_in_order reorder) merge.

(** A sequence of bytes that begins the UTF-8 form of some scalar value
    (or is all of it). *)
Definition starts_sequence (p : list Z) : Prop :=
  ∃ c seq, Utf8.encode_cp c = Ok seq ∧ p `prefix_of` seq.

(** An invalid byte subsequence at the front of [bad ++ rest], as decoding
    with [errors="replace"] delimits it: the input does not begin with the
    UTF-8 form of a scalar value, and [bad] is either one byte that begins
    no such form, or the longest prefix of the input that begins one (the
    next byte, if there is one, breaks it). *)
Definition ill_formed_subsequence (bad rest : list Z) : Prop :=
  bad ≠ []
  ∧ (∀ c seq, Utf8.encode_cp c = Ok seq → ¬ seq `prefix_of` (bad ++ rest))
  ∧ ((∃ b, bad = [b] ∧ ¬ starts_sequence [b])
     ∨ (starts_sequence bad
        ∧ ∀ b rest', rest = b :: rest' → ¬ starts_sequence (bad ++ [b]))).

(** Decoding with replacement as section 4.7 words it: the UTF-8 form of
    a scalar value gives that value; an invalid byte subsequence gives one
    U+FFFD; decoding goes on behind either. *)
Inductive replaced_decoding : list Z → list Z → Prop :=
  | replaced_nil : replaced_decoding [] []
  | replaced_char c seq rest out :
      Utf8.encode_cp c = Ok seq →
      replaced_decoding rest out →
      replaced_decoding (seq ++ rest) (c :: out)
  | replaced_bad bad rest out :
      ill_formed_subsequence bad rest →
      replaced_decoding rest out →
      replaced_decoding (bad ++ rest) (Utf8.REPLACEMENT :: out).

(** The byte patterns of well-formed UTF-8. *)
Definition well_formed (seq : list Z) : Prop :=
  match seq with
  | [b0] => 0 ≤ b0 ≤ 127
  | [b0; b1] => 194 ≤ b0 ≤ 223 ∧ 128 ≤ b1 ≤ 191
  | [b0; b1; b2] =>
      224 ≤ b0 ≤ 239 ∧ Utf8.second_lo b0 ≤ b1 ≤ Utf8.second_hi b0
      ∧ 128 ≤ b2 ≤ 191
  | [b0; b1; b2; b3] =>
      240 ≤ b0 ≤ 244 ∧ Utf8.second_lo b0 ≤ b1 ≤ Utf8.second_hi b0
      ∧ 128 ≤ b2 ≤ 191 ∧ 128 ≤ b3 ≤ 191
  | _ => False
  end.

(** * Properties *)

(** ** The result monad *)

Lemma bind_Ok {A B} (m : result A) (f : A → result B) (b : B) :
  (m ≫= f) = Ok b ↔ ∃ a, m = Ok a ∧ f a = Ok b.
Proof.
  destruct m as [a| |]; simpl; split.
  - intros H. exists a. by split.
  - by intros (a' & [= <-] & H).
  - done.
  - by intros (a' & [=] & _).
  - done.
  - by intros (a' & [=] & _).
Qed.

Ltac inv_bind H :=
  let a := fresh "a" in
  let Ha := fresh "Hbind" in
  apply bind_Ok in H as (a & Ha & H).

(** ** Adjacent pairs *)

Lemma adjacent_pairs_cons a b rest :
  adjacent_pairs (a :: b :: rest) = (a, b) :: adjacent_pairs (b :: rest).
Proof. reflexivity. Qed.

Lemma adjacent_pairs_length ids :
  length (adjacent_pairs ids) = (length ids - 1)%nat.
Proof.
  unfold adjacent_pairs. rewrite length_zip_with, length_drop. lia.
Qed.

Lemma adjacent_pairs_short ids :
  (length ids < 2)%nat → adjacent_pairs ids = [].
Proof.
  intros H. apply length_zero_iff_nil. rewrite adjacent_pairs_length. lia.
Qed.

Lemma zip_take_enough {A B} (l1 : list A) (l2 : list B) (n : nat) :
  (length l2 ≤ n)%nat → zip (take n l1) l2 = zip l1 l2.
Proof.
  revert l2 n. induction l1 as [|a l1 IH]; intros [|b l2] [|n] H;
    simpl in *; try reflexivity; try lia.
  f_equal. apply IH. lia.
Qed.

(** numpy's rows are the same list: both slices have the same length, so
    nothing is cut by the zip. *)
Lemma np_pairs_adjacent ids : np_pairs ids = adjacent_pairs ids.
Proof.
  unfold np_pairs, adjacent_pairs. apply zip_take_enough.
  rewrite length_drop. lia.
Qed.

(** Induction following the scan of [merge]: two elements at a time. *)
Lemma scan_ind (P : list Z → Prop) :
  P [] → (∀ a, P [a]) →
  (∀ a b rest, P rest → P (b :: rest) → P (a :: b :: rest)) →
  ∀ ids, P ids.
Proof.
  intros Hnil Hone Hstep ids.
  assert (P ids ∧ ∀ a, P (a :: ids)) as [H _]; [|exact H].
  induction ids as [|b rest [IH1 IH2]]; split; auto.
Qed.

(** ** [merge] *)

Lemma merge_cons2 a b rest pair idx :
  merge (a :: b :: rest) pair idx =
  if bool_decide (a = pair.1) && bool_decide (b = pair.2)
  then idx :: merge rest pair idx
  else a :: merge (b :: rest) pair idx.
Proof. reflexivity. Qed.

Lemma merge_length_le ids pair idx :
  (length (merge ids pair idx) ≤ length ids)%nat.
Proof.
  induction ids as [| a | a b rest IH1 IH2] using scan_ind; [done..|].
  rewrite merge_cons2.
  destruct (bool_decide (a = pair.1) && bool_decide (b = pair.2));
    simpl in *; lia.
Qed.

(** A merge of a pair that occurs shortens the sequence. *)
Lemma merge_length_lt ids pair idx :
  pair ∈ adjacent_pairs ids →
  (length (merge ids pair idx) < length ids)%nat.
Proof.
  induction ids as [| a | a b rest IH1 IH2] using scan_ind.
  - intros H. by apply elem_of_nil in H.
  - intros H. by apply elem_of_nil in H.
  - rewrite adjacent_pairs_cons, merge_cons2. intros H.
    destruct (bool_decide (a = pair.1) && bool_decide (b = pair.2)) eqn:E.
    + pose proof (merge_length_le rest pair idx). simpl. lia.
    + apply elem_of_cons in H as [->|H].
      * simpl in E. by rewrite !bool_decide_eq_true_2 in E.
      * apply IH2 in H. simpl in *. lia.
Qed.

(** It never empties a sequence that is not empty. *)
Lemma merge_length_pos ids pair idx :
  ids ≠ [] → (1 ≤ length (merge ids pair idx))%nat.
Proof.
  destruct ids as [|a [|b rest]]; [done| simpl; lia |].
  intros _. rewrite merge_cons2.
  destruct (bool_decide (a = pair.1) && bool_decide (b = pair.2));
    simpl; lia.
Qed.

(** The case the spec singles out: the scan does not reuse the middle
    element. *)
Lemma merge_triple X idx : merge [X; X; X] (X, X) idx = [idx; X].
Proof.
  rewrite merge_cons2. simpl. by rewrite !bool_decide_eq_true_2.
Qed.

(** ** [get_stats]: its keys *)

Lemma count_pair_keys counts p q :
  q ∈ (count_pair counts p).*1 ↔ q = p ∨ q ∈ counts.*1.
Proof.
  induction counts as [|[k c] rest IH]; simpl.
  - rewrite list_elem_of_singleton. set_solver.
  - case_bool_decide as E; simpl.
    + subst k. rewrite !elem_of_cons. naive_solver.
    + rewrite !elem_of_cons, IH. naive_solver.
Qed.

Lemma foldl_count_pair_keys l counts q :
  q ∈ (foldl count_pair counts l).*1 ↔ q ∈ l ∨ q ∈ counts.*1.
Proof.
  revert counts. induction l as [|p l IH]; intros counts; simpl.
  - set_solver.
  - rewrite IH, count_pair_keys, elem_of_cons. naive_solver.
Qed.

Lemma get_stats_keys ids q :
  q ∈ (get_stats ids).*1 ↔ q ∈ adjacent_pairs ids.
Proof.
  unfold get_stats. rewrite foldl_count_pair_keys. set_solver.
Qed.

(** ** [min] with the [inf] default *)

Lemma rank_lt_trans_le (a b c : option Z) :
  rank_lt a b = false → rank_lt b c = false → rank_lt a c = false.
Proof.
  destruct a, b, c; simpl; try done.
  rewrite !Z.ltb_ge. lia.
Qed.

Lemma rank_lt_asym (a b : option Z) : rank_lt a b = true → rank_lt b a = false.
Proof.
  destruct a, b; simpl; try done.
  rewrite Z.ltb_lt, Z.ltb_ge. lia.
Qed.

Lemma py_min_from_in {A} (f : A → option Z) x l : py_min_from f x l ∈ x :: l.
Proof.
  revert x. induction l as [|y l IH]; intros x; simpl.
  - apply list_elem_of_singleton. reflexivity.
  - destruct (rank_lt (f y) (f x)).
    + apply list_elem_of_further, IH.
    + specialize (IH x). apply elem_of_cons in IH as [->|IH].
      * apply list_elem_of_here.
      * by do 2 apply list_elem_of_further.
Qed.

(** No element ranks strictly below the one [min] returns. *)
Lemma py_min_from_least {A} (f : A → option Z) x l y :
  y ∈ x :: l → rank_lt (f y) (f (py_min_from f x l)) = false.
Proof.
  revert x y. induction l as [|z l IH]; intros x y Hy; simpl.
  - apply list_elem_of_singleton in Hy. subst y.
    destruct (f x); simpl; [|done]. apply Z.ltb_irrefl.
  - destruct (rank_lt (f z) (f x)) eqn:E.
    + apply elem_of_cons in Hy as [Hy|Hy]; [|by apply IH].
      subst y. eapply rank_lt_trans_le; [by apply rank_lt_asym|].
      apply IH, list_elem_of_here.
    + apply elem_of_cons in Hy as [Hy|Hy];
        [subst y; apply IH, list_elem_of_here|].
      apply elem_of_cons in Hy as [Hy|Hy].
      * subst y. eapply rank_lt_trans_le; [exact E|].
        apply IH, list_elem_of_here.
      * by apply IH, list_elem_of_further.
Qed.

(** ** The loop of [encode] *)

Lemma encode_loop_unfold fuel m ids :
  encode_loop fuel m ids =
  if 2 <=? Z.of_nat (length ids) then
    match fuel with
    | O => NoFuel
    | S fuel' =>
        pair ← py_min (λ p, m !! p) (get_stats ids).*1;
        match m !! pair with
        | None => Ok ids
        | Some idx => encode_loop fuel' m (merge ids pair idx)
        end
    end
  else Ok ids.
Proof. destruct fuel; reflexivity. Qed.

(** With two tokens or more [min] has something to choose from, and what
    it returns is an adjacent pair of least rank. *)
Lemma encode_pick_ok (m : gmap (Z * Z) Z) (ids : list Z) :
  (2 ≤ length ids)%nat →
  ∃ pair, py_min (λ p, m !! p) (get_stats ids).*1 = Ok pair
          ∧ pair ∈ adjacent_pairs ids
          ∧ ∀ q, q ∈ adjacent_pairs ids → rank_lt (m !! q) (m !! pair) = false.
Proof.
  intros Hlen.
  destruct ((get_stats ids).*1) as [|k ks] eqn:E.
  - destruct ids as [|a [|b rest]]; simpl in Hlen; try lia.
    assert ((a, b) ∈ (get_stats (a :: b :: rest)).*1) as H.
    { apply get_stats_keys. rewrite adjacent_pairs_cons. apply list_elem_of_here. }
    rewrite E in H. by apply elem_of_nil in H.
  - exists (py_min_from (λ p, m !! p) k ks). split; [reflexivity|]. split.
    + apply get_stats_keys. rewrite E. apply py_min_from_in.
    + intros q Hq. apply get_stats_keys in Hq. rewrite E in Hq.
      by apply (py_min_from_least (λ p, m !! p)).
Qed.

(** As many iterations as there are tokens are enough. *)
Lemma encode_loop_enough (fuel : nat) (m : gmap (Z * Z) Z) (ids : list Z) :
  (length ids ≤ fuel)%nat → ∃ out, encode_loop fuel m ids = Ok out.
Proof.
  revert ids. induction fuel as [|fuel IH]; intros ids Hlen;
    rewrite encode_loop_unfold.
  - destruct (Z.leb_spec 2 (Z.of_nat (length ids))); [lia|]. by eexists.
  - destruct (Z.leb_spec 2 (Z.of_nat (length ids))) as [H2|H2]; [|by eexists].
    destruct (encode_pick_ok m ids) as (pair & -> & Hin & _); [lia|]. simpl.
    destruct (m !! pair) as [idx|]; [|by eexists].
    apply IH. pose proof (merge_length_lt ids pair idx Hin). lia.
Qed.

Lemma encode_loop_greedy (fuel : nat) (m : gmap (Z * Z) Z) (ids out : list Z) :
  encode_loop fuel m ids = Ok out → greedy_encoding m ids out.
Proof.
  revert ids. induction fuel as [|fuel IH]; intros ids;
    rewrite encode_loop_unfold;
    destruct (Z.leb_spec 2 (Z.of_nat (length ids))) as [H2|H2]; try done.
  - intros [= <-]. apply greedy_stop. left. lia.
  - destruct (encode_pick_ok m ids) as (pair & -> & Hin & Hleast); [lia|].
    simpl. destruct (m !! pair) as [idx|] eqn:Hpair.
    + intros Hrec. eapply greedy_merge; eauto.
      intros q j Hq Hj. specialize (Hleast q Hq). rewrite Hj in Hleast.
      simpl in Hleast. apply Z.ltb_ge in Hleast. exact Hleast.
    + intros [= <-]. apply greedy_stop. right. intros q Hq.
      specialize (Hleast q Hq). by destruct (m !! q).
  - intros [= <-]. apply greedy_stop. left. lia.
Qed.

(** C6: on the bytes of any text, [encode] returns, and what it returns is
    reached by repeatedly merging an adjacent pair that is a key of the
    merge table with the least id among such pairs, until no adjacent
    pair is a key or fewer than two tokens are left. *)
Theorem encode_greedy_least_id (tok : tokenizer) (text bs : list Z) :
  Utf8.encode text = Ok bs →
  ∃ out, encode tok text = Ok out ∧ greedy_encoding (merges tok) bs out.
Proof.
  intros Henc. unfold encode. rewrite Henc. simpl.
  destruct (encode_loop_enough (length bs) (merges tok) bs) as [out Hout];
    [lia|].
  exists out. split; [exact Hout|]. by eapply encode_loop_greedy.
Qed.

Lemma encode_greedy_least_id_witness :
  ∃ out, encode abc_table [97; 98; 99; 97; 98] = Ok out
         ∧ greedy_encoding (merges abc_table) [97; 98; 99; 97; 98] out.
Proof.
  apply (encode_greedy_least_id abc_table [97; 98; 99; 97; 98]).
  reflexivity.
Defined.

(** [text.encode("utf-8")] returns bytes or raises its one error. *)
Lemma utf8_encode_cp_result c :
  Utf8.encode_cp c = Raise UnicodeEncodeError ∨ ∃ bs, Utf8.encode_cp c = Ok bs.
Proof.
  unfold Utf8.encode_cp.
  repeat match goal with
         | |- context [if ?b then _ else _] => destruct b
         end; eauto.
Qed.

Lemma utf8_encode_result text :
  Utf8.encode text = Raise UnicodeEncodeError ∨ ∃ bs, Utf8.encode text = Ok bs.
Proof.
  induction text as [|c t IH]; simpl; [eauto|].
  destruct (utf8_encode_cp_result c) as [->|[bs ->]]; simpl; [eauto|].
  destruct IH as [->|[bs' ->]]; simpl; eauto.
Qed.

(** C9: the loop of [encode] ends within as many iterations as there are
    tokens, so [encode] either refuses the text (it has no UTF-8 form) or
    returns; the pair an iteration merges occurs in the sequence, and its
    merge leaves a sequence that is strictly shorter and not empty. *)
Theorem encode_terminates (tok : tokenizer) (text ids : list Z) :
  (encode tok text = Raise UnicodeEncodeError ∨ ∃ out, encode tok text = Ok out)
  ∧ (∃ out, encode_loop (length ids) (merges tok) ids = Ok out)
  ∧ (∀ pair idx,
       (2 ≤ length ids)%nat →
       py_min (λ p, merges tok !! p) (get_stats ids).*1 = Ok pair →
       merges tok !! pair = Some idx →
       (1 ≤ length (merge ids pair idx) < length ids)%nat).
Proof.
  split; [|split].
  - unfold encode.
    destruct (utf8_encode_result text) as [->|[bs ->]]; simpl; [by left|].
    right. apply encode_loop_enough. lia.
  - apply encode_loop_enough. lia.
  - intros pair idx Hlen Hpick Hidx.
    destruct (encode_pick_ok (merges tok) ids Hlen) as (pair' & Hpick' & Hin & _).
    rewrite Hpick in Hpick'. injection Hpick' as <-.
    split.
    + apply merge_length_pos. destruct ids; simpl in *; [lia|done].
    + by apply merge_length_lt.
Qed.

(** C10: a text of fewer than two bytes is returned as its bytes,
    whatever the merge table holds; the empty text gives the empty
    sequence. *)
Theorem encode_short_unchanged (tok : tokenizer) (text bs : list Z) :
  Utf8.encode text = Ok bs → (length bs < 2)%nat →
  encode tok text = Ok bs ∧ encode tok [] = Ok [].
Proof.
  intros Henc Hlen. split; [|reflexivity].
  unfold encode. rewrite Henc. simpl. rewrite encode_loop_unfold.
  destruct (Z.leb_spec 2 (Z.of_nat (length bs))); [lia|reflexivity].
Qed.

Lemma encode_short_unchanged_witness :
  encode abc_table [97] = Ok [97] ∧ encode abc_table [] = Ok [].
Proof.
  apply (encode_short_unchanged abc_table [97] [97]); [reflexivity|simpl; lia].
Defined.

(** ** The mask-based removal *)

(** C2: the scan of [merge] turns [X, X, X] into [idx, X]; the mask of the
    array strategies marks both overlapping occurrences and leaves [idx]
    alone, so the third element is lost. *)
Theorem mask_merge_overlap (X idx : Z) :
  merge [X; X; X] (X, X) idx = [idx; X]
  ∧ mask_merge [X; X; X] (X, X) idx = [idx].
Proof.
  split; [apply merge_triple|].
  unfold mask_merge. rewrite np_pairs_adjacent.
  cbn [adjacent_pairs drop zip zip_with fmap list_fmap].
  rewrite !bool_decide_eq_true_2 by reflexivity. reflexivity.
Qed.

Lemma roll1_snoc_false (m : list bool) : roll1 (m ++ [false]) = false :: m.
Proof.
  unfold roll1. destruct (m ++ [false]) as [|x l] eqn:E.
  - by destruct m.
  - rewrite <- E. rewrite length_app. simpl.
    replace (length m + 1 - 1)%nat with (length m) by lia.
    by rewrite drop_app_length, take_app_length.
Qed.

Lemma mask_scan_cons2 pair idx keep a b rest :
  mask_scan pair idx keep (a :: b :: rest)
  = (if keep then [if bool_decide ((a, b) = pair) then idx else a] else [])
      ++ mask_scan pair idx (negb (bool_decide ((a, b) = pair))) (b :: rest).
Proof. reflexivity. Qed.

Lemma mask_merge_scan_from (pair : Z * Z) (idx : Z) (keep : bool) (ids : list Z) :
  select_mask (keep :: (negb <$> ((λ q, bool_decide (q = pair)) <$> adjacent_pairs ids)))
    (assign_mask (((λ q, bool_decide (q = pair)) <$> adjacent_pairs ids) ++ [false]) idx ids)
  = mask_scan pair idx keep ids.
Proof.
  revert keep. induction ids as [|a rest IH]; intros keep; [by destruct keep|].
  destruct rest as [|b rest].
  - by destruct keep.
  - rewrite adjacent_pairs_cons.
    rewrite mask_scan_cons2, <- (IH (negb (bool_decide ((a, b) = pair)))).
    cbn [fmap list_fmap app]. unfold assign_mask.
    cbn [zip_with select_mask]. by destruct keep.
Qed.

Lemma mask_merge_scan ids pair idx :
  mask_merge ids pair idx = mask_scan pair idx true ids.
Proof.
  unfold mask_merge. rewrite np_pairs_adjacent, roll1_snoc_false.
  apply (mask_merge_scan_from pair idx true).
Qed.

(** Where the occurrences of the pair do not overlap (always so when its
    two ids differ) the mask-based removal is the scan of [merge]. *)
Lemma mask_merge_no_overlap ids pair idx :
  no_overlap pair ids → mask_merge ids pair idx = merge ids pair idx.
Proof.
  rewrite mask_merge_scan.
  induction ids as [| a | a b rest IH1 IH2] using scan_ind; intros Hno;
    [done..|].
  assert (no_overlap pair (b :: rest)) as Hno1.
  { intros pre x y z suf Heq. apply (Hno (a :: pre) x y z suf). by rewrite Heq. }
  assert (no_overlap pair rest) as Hno2.
  { intros pre x y z suf Heq. apply (Hno (a :: b :: pre) x y z suf). by rewrite Heq. }
  rewrite merge_cons2, mask_scan_cons2.
  destruct (bool_decide ((a, b) = pair)) eqn:E.
  - apply bool_decide_eq_true in E. subst pair. cbn [fst snd negb app].
    rewrite !bool_decide_eq_true_2 by done. cbn [andb]. f_equal.
    rewrite <- (IH1 Hno2). destruct rest as [|c rest]; [done|].
    rewrite mask_scan_cons2. rewrite bool_decide_eq_false_2; [done|].
    intros Hbc. by apply (Hno [] a b c rest).
  - apply bool_decide_eq_false in E.
    replace (bool_decide (a = pair.1) && bool_decide (b = pair.2)) with false.
    + cbn [negb app]. f_equal. by apply IH2.
    + symmetry. apply andb_false_iff.
      destruct (decide (a = pair.1)) as [Ha|Ha];
        [|left; by apply bool_decide_eq_false].
      right. apply bool_decide_eq_false. intros Hb. apply E.
      destruct pair. simpl in *. by subst.
Qed.

Lemma no_overlap_distinct L R ids : L ≠ R → no_overlap (L, R) ids.
Proof. intros Hne pre a b c suf _ [[= <- <-] [= ? ?]]. congruence. Qed.

(** ** The training loop *)

Section TrainerFacts.
Variable choose : list Z → result (Z * Z).
Variable replace : list Z → Z * Z → Z → list Z.

Lemma train_loop_app n k i st :
  train_loop choose replace (n + k) i st =
  (train_loop choose replace n i st ≫= train_loop choose replace k (i + n)).
Proof.
  revert i st. induction n as [|n IH]; intros i st; simpl.
  - by rewrite Nat.add_0_r.
  - destruct (train_iter choose replace i st) as [st'| |]; simpl; try done.
    rewrite IH. by rewrite Nat.add_succ_comm.
Qed.

(** A prefix of a run that completes completes. *)
Lemma train_loop_prefix n k i st st' :
  train_loop choose replace (n + k) i st = Ok st' →
  ∃ st_n, train_loop choose replace n i st = Ok st_n
          ∧ train_loop choose replace k (i + n) st_n = Ok st'.
Proof. rewrite train_loop_app. apply bind_Ok. Qed.

(** If the choice of iteration [j] raises, so does every longer run. *)
Lemma train_loop_raises n j i st st_j e :
  (j < n)%nat →
  train_loop choose replace j i st = Ok st_j →
  choose (ts_ids st_j) = Raise e →
  train_loop choose replace n i st = Raise e.
Proof.
  intros Hj Hrun Hch.
  replace n with (j + S (n - S j))%nat by lia.
  rewrite train_loop_app, Hrun. simpl.
  unfold train_iter. by rewrite Hch.
Qed.

Lemma train_with_raises text vocab_size ids j st_j e :
  Utf8.encode text = Ok ids →
  (j < Z.to_nat (vocab_size - 256))%nat →
  train_loop choose replace j 0 (train_init ids) = Ok st_j →
  choose (ts_ids st_j) = Raise e →
  train_with choose replace text vocab_size = Raise e.
Proof.
  intros Henc Hj Hrun Hch. unfold train_with.
  destruct (Z.ltb_spec vocab_size 256); [lia|].
  rewrite Henc. simpl.
  by rewrite (train_loop_raises _ j 0 _ st_j e Hj Hrun Hch).
Qed.

Lemma train_with_256 text ids :
  Utf8.encode text = Ok ids →
  train_with choose replace text 256 = Ok (Tokenizer ∅ seed_vocab).
Proof. intros Henc. unfold train_with. simpl. by rewrite Henc. Qed.
End TrainerFacts.

Lemma get_stats_nil_iff ids : get_stats ids = [] ↔ (length ids < 2)%nat.
Proof.
  split.
  - intros H. destruct ids as [|a [|b rest]]; simpl; try lia.
    assert ((a, b) ∈ (get_stats (a :: b :: rest)).*1) as Hin.
    { apply get_stats_keys. rewrite adjacent_pairs_cons. apply list_elem_of_here. }
    rewrite H in Hin. by apply elem_of_nil in Hin.
  - intros H. unfold get_stats. by rewrite adjacent_pairs_short.
Qed.

Lemma unique_insert_not_nil p u : unique_insert p u ≠ [].
Proof.
  destruct u as [|[q c] rest]; simpl; [done|].
  destruct (pair_ltb p q); [done|]. by case_bool_decide.
Qed.

Lemma np_unique_counts_nil_iff ids :
  np_unique_counts (np_pairs ids) = [] ↔ (length ids < 2)%nat.
Proof.
  rewrite np_pairs_adjacent. split.
  - destruct ids as [|a [|b rest]]; [simpl; lia..|].
    rewrite adjacent_pairs_cons. cbn [np_unique_counts foldr]. intros H.
    by apply unique_insert_not_nil in H.
  - intros H. by rewrite adjacent_pairs_short.
Qed.

(** Without a pair to count, [max] and [argmax] raise. *)
Lemma train_choose_empty ids :
  get_stats ids = [] → train_choose ids = Raise ValueError.
Proof. intros H. unfold train_choose. by rewrite H. Qed.

Lemma array_choose_empty e ids :
  np_unique_counts (np_pairs ids) = [] → array_choose e ids = Raise e.
Proof. intros H. unfold array_choose. by rewrite H. Qed.

(** C5, as the code has it: there is no saturation path.  When the pair
    statistics are empty at the start of an iteration that is still to
    run, [max] (in [train]) and [argmax] (in [train_vectorized]) raise
    [ValueError], and nothing is returned.  In particular a text of fewer
    than two bytes trains only with [vocab_size = 256], where no iteration
    runs and the result is the empty merge table with the seed
    vocabulary. *)
Theorem train_empty_stats_raises (text : list Z) (vocab_size : Z)
    (ids : list Z) (j : nat) :
  Utf8.encode text = Ok ids →
  (j < Z.to_nat (vocab_size - 256))%nat →
  (∀ st, train_loop train_choose merge j 0 (train_init ids) = Ok st →
         get_stats (ts_ids st) = [] →
         train text vocab_size = Raise ValueError)
  ∧ (∀ st, train_loop (array_choose ValueError) mask_merge j 0 (train_init ids) = Ok st →
           np_unique_counts (np_pairs (ts_ids st)) = [] →
           train_vectorized text vocab_size = Raise ValueError)
  ∧ ((length ids < 2)%nat →
     train text vocab_size = Raise ValueError
     ∧ train_vectorized text vocab_size = Raise ValueError
     ∧ train text 256 = Ok (Tokenizer ∅ seed_vocab)
     ∧ train_vectorized text 256 = Ok (Tokenizer ∅ seed_vocab)).
Proof.
  intros Henc Hj. split; [|split].
  - intros st Hrun Hempty.
    eapply train_with_raises; eauto using train_choose_empty.
  - intros st Hrun Hempty.
    eapply train_with_raises; eauto using array_choose_empty.
  - intros Hlen. repeat split.
    + eapply (train_with_raises _ _ _ _ _ 0%nat); [done|lia|done|].
      by apply train_choose_empty, get_stats_nil_iff.
    + eapply (train_with_raises _ _ _ _ _ 0%nat); [done|lia|done|].
      by apply array_choose_empty, np_unique_counts_nil_iff.
    + by eapply train_with_256.
    + by eapply train_with_256.
Qed.

Lemma train_empty_stats_raises_witness :
  train [65] 300 = Raise ValueError
  ∧ train_vectorized [65] 300 = Raise ValueError
  ∧ train [65] 256 = Ok (Tokenizer ∅ seed_vocab)
  ∧ train_vectorized [65] 256 = Ok (Tokenizer ∅ seed_vocab).
Proof.
  apply (train_empty_stats_raises [65] 300 [65] 0); [reflexivity|lia|simpl; lia].
Defined.

(** C5 as stated fails: on the single byte 0x41 with [vocab_size = 300]
    training does not return the seed vocabulary, it raises. *)
Lemma train_single_byte_raises :
  train [65] 300 = Raise ValueError
  ∧ train [65] 300 ≠ Ok (Tokenizer ∅ seed_vocab).
Proof. split; [reflexivity|discriminate]. Qed.

(** ** The vocabulary *)

Lemma seed_vocab_lookup (id : Z) :
  seed_vocab !! id = if bool_decide (0 ≤ id < 256) then Some [id] else None.
Proof.
  unfold seed_vocab.
  destruct (list_to_map (M := gmap Z (list Z)) _ !! id) as [bs|] eqn:E.
  - apply elem_of_list_to_map_2, list_elem_of_fmap in E as (x & [= -> ->] & Hx).
    apply elem_of_seqZ in Hx. by rewrite bool_decide_eq_true_2 by lia.
  - apply not_elem_of_list_to_map_2 in E. case_bool_decide as H; [|done].
    exfalso. apply E. rewrite <- list_fmap_compose.
    apply list_elem_of_fmap. exists id. split; [done|].
    apply elem_of_seqZ. lia.
Qed.

Lemma seed_vocab_size : size seed_vocab = 256%nat.
Proof. vm_compute. reflexivity. Qed.

Lemma train_init_inv ids : train_inv 0 (train_init ids).
Proof.
  split; cbn [train_init ts_vocab ts_merges].
  - intros id. rewrite seed_vocab_lookup. case_bool_decide as H.
    + split; [lia|by eexists].
    + split; [by intros [? [=]]|lia].
  - intros b Hb. rewrite seed_vocab_lookup. by rewrite bool_decide_eq_true_2.
  - apply seed_vocab_size.
  - intros L R id H. by rewrite lookup_empty in H.
Qed.

Lemma vocab_get_Ok v k bs : vocab_get v k = Ok bs ↔ v !! k = Some bs.
Proof. unfold vocab_get. destruct (v !! k); naive_solver. Qed.

Section TrainerInvariants.
Variable choose : list Z → result (Z * Z).
Variable replace : list Z → Z * Z → Z → list Z.

(** One iteration, read off its result. *)
Lemma train_iter_Ok i st st' :
  train_iter choose replace i st = Ok st' →
  ∃ L R l r,
    choose (ts_ids st) = Ok (L, R)
    ∧ ts_vocab st !! L = Some l ∧ ts_vocab st !! R = Some r
    ∧ st' = TrainState (replace (ts_ids st) (L, R) (256 + Z.of_nat i))
              (<[(L, R) := 256 + Z.of_nat i]> (ts_merges st))
              (<[256 + Z.of_nat i := l ++ r]> (ts_vocab st)).
Proof.
  unfold train_iter. intros H.
  inv_bind H. destruct a as [L R]. inv_bind H. inv_bind H.
  injection H as <-. apply vocab_get_Ok in Hbind0, Hbind1.
  by exists L, R, a, a0.
Qed.

(** The new id is fresh, so the iteration only adds to the vocabulary. *)
Lemma train_iter_inv i st st' :
  train_iter choose replace i st = Ok st' →
  train_inv i st →
  train_inv (S i) st'
  ∧ ts_vocab st !! (256 + Z.of_nat i) = None
  ∧ ts_vocab st ⊆ ts_vocab st'.
Proof.
  intros H [Hdom Hseed Hsize Hlearned].
  apply train_iter_Ok in H as (L & R & l & r & Hch & HL & HR & ->). simpl.
  assert (ts_vocab st !! (256 + Z.of_nat i) = None) as Hfresh.
  { apply eq_None_not_Some. rewrite Hdom. lia. }
  assert (ts_vocab st ⊆ <[256 + Z.of_nat i := l ++ r]> (ts_vocab st)) as Hsub
    by by apply insert_subseteq.
  split; [|by split]. split; simpl.
  - intros id. rewrite lookup_insert_is_Some, Hdom. lia.
  - intros b Hb. eapply lookup_weaken; [by apply Hseed|done].
  - rewrite map_size_insert_None by done. rewrite Hsize. lia.
  - intros L' R' id. rewrite lookup_insert. case_decide as E.
    + intros [= <-]. injection E as <- <-. exists l, r.
      split; [by eapply lookup_weaken|]. split; [by eapply lookup_weaken|].
      apply lookup_insert_eq.
    + intros Hm. destruct (Hlearned _ _ _ Hm) as (l' & r' & H1 & H2 & H3).
      exists l', r'. repeat split; by eapply lookup_weaken.
Qed.

Lemma train_loop_inv n i st st' :
  train_loop choose replace n i st = Ok st' →
  train_inv i st →
  train_inv (i + n) st' ∧ ts_vocab st ⊆ ts_vocab st'.
Proof.
  revert i st. induction n as [|n IH]; intros i st; simpl.
  - intros [= <-] Hinv. by rewrite Nat.add_0_r.
  - intros H Hinv. inv_bind H.
    destruct (train_iter_inv _ _ _ Hbind Hinv) as (Hinv' & _ & Hsub).
    destruct (IH _ _ H Hinv') as [Hinv'' Hsub'].
    rewrite <- Nat.add_succ_comm. split; [done|]. by etrans.
Qed.

Lemma train_with_Ok text vocab_size tok :
  train_with choose replace text vocab_size = Ok tok →
  256 ≤ vocab_size
  ∧ ∃ ids st, Utf8.encode text = Ok ids
      ∧ train_loop choose replace (Z.to_nat (vocab_size - 256)) 0 (train_init ids) = Ok st
      ∧ tok = Tokenizer (ts_merges st) (ts_vocab st).
Proof.
  unfold train_with. destruct (Z.ltb_spec vocab_size 256) as [|Hvs]; [done|].
  intros Hrun. inv_bind Hrun. inv_bind Hrun. injection Hrun as <-.
  split; [lia|]. by exists a, a0.
Qed.

Lemma train_with_prefix text ids (n : nat) st :
  Utf8.encode text = Ok ids →
  train_loop choose replace n 0 (train_init ids) = Ok st →
  train_with choose replace text (256 + Z.of_nat n)
  = Ok (Tokenizer (ts_merges st) (ts_vocab st)).
Proof.
  intros Henc Hrun. unfold train_with.
  destruct (Z.ltb_spec (256 + Z.of_nat n) 256); [lia|].
  rewrite Henc. simpl.
  replace (Z.to_nat (256 + Z.of_nat n - 256)) with n by lia.
  by rewrite Hrun.
Qed.
End TrainerInvariants.

(** ** [train_gpu] against [train_vectorized] *)

(** The kind of error raised on an empty array does not change what is
    picked. *)
Lemma array_choose_Ok e1 e2 ids p :
  array_choose e1 ids = Ok p → array_choose e2 ids = Ok p.
Proof.
  unfold array_choose.
  destruct ((np_unique_counts (np_pairs ids)).*2) as [|c cs]; simpl; done.
Qed.

(** The first loop only fills the rows [i .. i+n-1] of [merge_pairs]. *)
Lemma gpu_loop_picks n i ids (mp : list (Z * Z)) :
  (i + n ≤ length mp)%nat →
  gpu_loop n i ids mp =
  (array_picks n i ids ≫= λ ps, Ok (take i mp ++ ps ++ drop (i + n) mp)).
Proof.
  revert i ids mp. induction n as [|n IH]; intros i ids mp Hlen; simpl.
  - rewrite Nat.add_0_r. by rewrite take_drop.
  - destruct (array_choose IndexError ids) as [p| |]; simpl; try done.
    rewrite IH; [|rewrite length_insert; lia].
    destruct (array_picks n (S i) _) as [ps| |]; simpl; try done.
    f_equal.
    rewrite (take_S_r _ i p) by (apply list_lookup_insert_eq; lia).
    rewrite take_insert_ge by lia.
    rewrite drop_insert_lt by lia.
    replace (i + S n)%nat with (S i + n)%nat by lia.
    by rewrite <- app_assoc.
Qed.

Lemma gpu_loop_replicate n ids :
  gpu_loop n 0 ids (replicate n (0, 0)) = array_picks n 0 ids.
Proof.
  rewrite gpu_loop_picks by (rewrite length_replicate; lia).
  destruct (array_picks n 0 ids) as [ps| |]; simpl; try done.
  rewrite drop_replicate, Nat.sub_diag. simpl. by rewrite app_nil_r.
Qed.

Lemma gpu_merges_eq mp : gpu_merges mp = foldl gpu_insert ∅ (imap pair mp).
Proof. reflexivity. Qed.

(** Both loops of [train_gpu] against the one loop of [train_vectorized]:
    the same merge table and the same vocabulary, and one completes
    exactly when the other does. *)
Lemma vectorized_loop_gpu n i ids m v (pre : list (Z * Z)) m' v' :
  length pre = i →
  (∃ st', train_loop (array_choose ValueError) mask_merge n i (TrainState ids m v) = Ok st'
          ∧ ts_merges st' = m' ∧ ts_vocab st' = v')
  ↔ (∃ ps, array_picks n i ids = Ok ps
           ∧ gpu_vocab_loop n i (pre ++ ps) v = Ok v'
           ∧ m' = foldl gpu_insert m (imap (λ j p, ((i + j)%nat, p)) ps)).
Proof.
  revert i ids m v pre m' v'.
  induction n as [|n IH]; intros i ids m v pre m' v' Hpre; simpl.
  - split.
    + intros (st' & [= <-] & <- & <-). by exists [].
    + intros (ps & [= <-] & [= <-] & ->). by eexists.
  - assert (∀ p : Z * Z, length (pre ++ [p]) = S i) as Hpre'
      by (intros p; rewrite length_app; simpl; lia).
    split.
    + intros (st' & H & <- & <-). inv_bind H.
      apply train_iter_Ok in Hbind as (L & R & l & r & Hch & HL & HR & ->).
      simpl in *.
      destruct (proj1 (IH (S i) (mask_merge ids (L, R) (256 + Z.of_nat i))
                         (<[(L, R) := 256 + Z.of_nat i]> m)
                         (<[256 + Z.of_nat i := l ++ r]> v)
                         (pre ++ [(L, R)]) (ts_merges st') (ts_vocab st') (Hpre' _)))
        as (ps & Hps & Hv & Hm); [by eexists|].
      exists ((L, R) :: ps).
      rewrite (array_choose_Ok _ IndexError _ _ Hch). simpl.
      rewrite (Z.add_comm (Z.of_nat i) 256), Hps. simpl. split; [done|].
      rewrite list_lookup_middle by done.
      unfold vocab_get. simpl. rewrite HL, HR. simpl.
      rewrite <- app_assoc in Hv. split; [exact Hv|].
      rewrite Hm. unfold gpu_insert at 3. simpl.
      rewrite Nat.add_0_r, (Z.add_comm (Z.of_nat i) 256). f_equal.
      apply imap_ext. intros j p _. simpl. f_equal. lia.
    + intros (ps & H & Hv & ->). inv_bind H. inv_bind H. injection H as <-.
      destruct a as [L R].
      rewrite list_lookup_middle in Hv by done.
      inv_bind Hv. inv_bind Hv. apply vocab_get_Ok in Hbind1, Hbind2.
      simpl in Hbind1, Hbind2.
      unfold train_iter. simpl.
      rewrite (array_choose_Ok _ ValueError _ _ Hbind). simpl.
      unfold vocab_get. rewrite Hbind1, Hbind2. simpl.
      rewrite (Z.add_comm (Z.of_nat i) 256) in Hbind0.
      apply (IH (S i) _ _ _ (pre ++ [(L, R)]) _ _ (Hpre' _)).
      exists a0. split; [done|]. rewrite <- app_assoc. split; [exact Hv|].
      simpl. unfold gpu_insert at 2. simpl.
      rewrite Nat.add_0_r, (Z.add_comm (Z.of_nat i) 256). f_equal.
      apply imap_ext. intros j p _. simpl. f_equal. lia.
Qed.

Lemma train_gpu_vectorized text vocab_size tok :
  train_gpu text vocab_size = Ok tok ↔ train_vectorized text vocab_size = Ok tok.
Proof.
  unfold train_gpu, train_vectorized, train_with, train_init.
  destruct (vocab_size <? 256); [done|].
  destruct (Utf8.encode text) as [ids| |]; simpl; [|done..].
  rewrite gpu_loop_replicate.
  pose proof (vectorized_loop_gpu (Z.to_nat (vocab_size - 256)) 0 ids ∅ seed_vocab
                [] (merges tok) (vocab tok) eq_refl) as H.
  split.
  - intros Hg. inv_bind Hg. inv_bind Hg. injection Hg as <-. simpl in H.
    destruct (proj2 H) as (st' & Hst & Hm & Hv); [by exists a|].
    rewrite Hst. simpl. by rewrite Hm, Hv.
  - intros Hv. inv_bind Hv. injection Hv as <-. simpl in H.
    destruct (proj1 H) as (ps & Hps & Hvl & Hm); [by eexists|].
    rewrite Hps. simpl. rewrite Hvl. simpl. rewrite Hm. reflexivity.
Qed.
(** ** UTF-8 *)

Lemma in_range_true lo hi b : Utf8.in_range lo hi b = true ↔ lo ≤ b ≤ hi.
Proof. unfold Utf8.in_range. rewrite andb_true_iff, !Z.leb_le. tauto. Qed.

Lemma in_range_false lo hi b : Utf8.in_range lo hi b = false ↔ ¬ (lo ≤ b ≤ hi).
Proof. rewrite <- in_range_true. by destruct (Utf8.in_range lo hi b). Qed.

Lemma utf8_decode_cons b0 r0 :
  Utf8.decode (b0 :: r0) =
  if Utf8.in_range 0 127 b0 then b0 :: Utf8.decode r0
  else if Utf8.in_range 194 223 b0 then
    match r0 with
    | [] => [Utf8.REPLACEMENT]
    | b1 :: r1 =>
        if Utf8.is_cont b1
        then ((b0 - 192) * 64 + (b1 - 128)) :: Utf8.decode r1
        else Utf8.REPLACEMENT :: Utf8.decode r0
    end
  else if Utf8.in_range 224 239 b0 then
    match r0 with
    | [] => [Utf8.REPLACEMENT]
    | b1 :: r1 =>
        if Utf8.in_range (Utf8.second_lo b0) (Utf8.second_hi b0) b1 then
          match r1 with
          | [] => [Utf8.REPLACEMENT]
          | b2 :: r2 =>
              if Utf8.is_cont b2
              then ((b0 - 224) * 4096 + (b1 - 128) * 64 + (b2 - 128))
                     :: Utf8.decode r2
              else Utf8.REPLACEMENT :: Utf8.decode r1
          end
        else Utf8.REPLACEMENT :: Utf8.decode r0
    end
  else if Utf8.in_range 240 244 b0 then
    match r0 with
    | [] => [Utf8.REPLACEMENT]
    | b1 :: r1 =>
        if Utf8.in_range (Utf8.second_lo b0) (Utf8.second_hi b0) b1 then
          match r1 with
          | [] => [Utf8.REPLACEMENT]
          | b2 :: r2 =>
              if Utf8.is_cont b2 then
                match r2 with
                | [] => [Utf8.REPLACEMENT]
                | b3 :: r3 =>
                    if Utf8.is_cont b3
                    then ((b0 - 240) * 262144 + (b1 - 128) * 4096
                          + (b2 - 128) * 64 + (b3 - 128)) :: Utf8.decode r3
                    else Utf8.REPLACEMENT :: Utf8.decode r2
                end
              else Utf8.REPLACEMENT :: Utf8.decode r1
          end
        else Utf8.REPLACEMENT :: Utf8.decode r0
    end
  else Utf8.REPLACEMENT :: Utf8.decode r0.
Proof. reflexivity. Qed.

(** Case analysis on the range tests of the codec: each test becomes a
    pair of inequalities. *)
Ltac range_cases :=
  repeat match goal with
    | |- context [Utf8.in_range ?lo ?hi ?b] =>
        let E := fresh "E" in
        destruct (Utf8.in_range lo hi b) eqn:E;
        [apply in_range_true in E | apply in_range_false in E]
    | |- context [?a <? ?b] => destruct (Z.ltb_spec a b)
    | |- context [?a <=? ?b] => destruct (Z.leb_spec a b)
    | |- context [?a =? ?b] => destruct (Z.eqb_spec a b)
    end.

Ltac zdiv := Z.div_mod_to_equations; lia.

(** The bytes of a code point are bytes. *)
Lemma utf8_encode_cp_bytes c bs :
  Utf8.encode_cp c = Ok bs → Forall is_byte bs.
Proof.
  unfold Utf8.encode_cp, is_byte. range_cases; intros [= <-];
    repeat constructor; zdiv.
Qed.

Lemma utf8_encode_bytes text bs :
  Utf8.encode text = Ok bs → Forall is_byte bs.
Proof.
  revert bs. induction text as [|c t IH]; intros bs; simpl.
  - intros [= <-]. constructor.
  - intros H. inv_bind H. inv_bind H. injection H as <-.
    apply Forall_app. split; [by eapply utf8_encode_cp_bytes|by apply IH].
Qed.

(** A code point is encoded exactly when it is a scalar value. *)
Lemma utf8_encode_cp_scalar c :
  Utf8.is_scalar c ↔ ∃ bs, Utf8.encode_cp c = Ok bs.
Proof.
  unfold Utf8.encode_cp, Utf8.is_scalar. range_cases; split;
    try (intros [bs [=]]); try (intros _; by eexists); lia.
Qed.

Lemma utf8_encode_scalar text :
  Forall Utf8.is_scalar text ↔ ∃ bs, Utf8.encode text = Ok bs.
Proof.
  induction text as [|c t IH]; simpl.
  - split; [by eexists|constructor].
  - rewrite Forall_cons, IH, utf8_encode_cp_scalar. split.
    + intros [[bs ->] [bs' ->]]. simpl. by eexists.
    + intros [bs H]. inv_bind H. inv_bind H. eauto.
Qed.

(** Decoding the bytes of a code point gives the code point back and
    consumes exactly those bytes. *)
Lemma utf8_decode_encode_cp c bs rest :
  Utf8.encode_cp c = Ok bs →
  Utf8.decode (bs ++ rest) = c :: Utf8.decode rest.
Proof.
  unfold Utf8.encode_cp.
  destruct (Z.ltb_spec c 0); [done|].
  destruct (Z.ltb_spec c 128).
  { intros [= <-]. simpl app. rewrite utf8_decode_cons.
    rewrite (proj2 (in_range_true 0 127 c)) by lia. done. }
  destruct (Z.ltb_spec c 2048).
  { intros [= <-]. simpl app. rewrite utf8_decode_cons.
    unfold Utf8.is_cont.
    rewrite (proj2 (in_range_false 0 127 _)) by zdiv.
    rewrite (proj2 (in_range_true 194 223 _)) by zdiv.
    rewrite (proj2 (in_range_true 128 191 _)) by zdiv.
    f_equal. zdiv. }
  destruct (Z.ltb_spec c 65536).
  { destruct (Utf8.in_range 55296 57343 c) eqn:Es; [done|].
    apply in_range_false in Es.
    intros [= <-]. simpl app. rewrite utf8_decode_cons.
    unfold Utf8.is_cont.
    rewrite (proj2 (in_range_false 0 127 _)) by zdiv.
    rewrite (proj2 (in_range_false 194 223 _)) by zdiv.
    rewrite (proj2 (in_range_true 224 239 _)) by zdiv.
    rewrite (proj2 (in_range_true _ _ (128 + (c / 64) mod 64))).
    2:{ unfold Utf8.second_lo, Utf8.second_hi. range_cases; zdiv. }
    rewrite (proj2 (in_range_true 128 191 _)) by zdiv.
    f_equal. zdiv. }
  destruct (Z.leb_spec c 1114111); [|done].
  intros [= <-]. simpl app. rewrite utf8_decode_cons.
  unfold Utf8.is_cont.
  rewrite (proj2 (in_range_false 0 127 _)) by zdiv.
  rewrite (proj2 (in_range_false 194 223 _)) by zdiv.
  rewrite (proj2 (in_range_false 224 239 _)) by zdiv.
  rewrite (proj2 (in_range_true 240 244 _)) by zdiv.
  rewrite (proj2 (in_range_true _ _ (128 + (c / 4096) mod 64))).
  2:{ unfold Utf8.second_lo, Utf8.second_hi. range_cases; zdiv. }
  rewrite !(proj2 (in_range_true 128 191 _)) by zdiv.
  f_equal. zdiv.
Qed.

(** Decoding what [encode] produced gives the text back. *)
Lemma utf8_decode_encode text bs :
  Utf8.encode text = Ok bs → Utf8.decode bs = text.
Proof.
  revert bs. induction text as [|c t IH]; intros bs; simpl.
  - by intros [= <-].
  - intros H. inv_bind H. inv_bind H. injection H as <-.
    rewrite (utf8_decode_encode_cp c a _ Hbind). f_equal. by apply IH.
Qed.

(** The code point of a well-formed sequence encodes to that sequence. *)
Lemma utf8_encode_cp_1 b0 :
  0 ≤ b0 ≤ 127 → Utf8.encode_cp b0 = Ok [b0].
Proof. intros H. unfold Utf8.encode_cp. range_cases; (done || lia). Qed.

Lemma utf8_encode_cp_2 b0 b1 :
  194 ≤ b0 ≤ 223 → 128 ≤ b1 ≤ 191 →
  Utf8.encode_cp ((b0 - 192) * 64 + (b1 - 128)) = Ok [b0; b1].
Proof.
  intros H0 H1. unfold Utf8.encode_cp. range_cases; try lia.
  do 2 f_equal; [zdiv|f_equal; zdiv].
Qed.

Lemma utf8_encode_cp_3 b0 b1 b2 :
  224 ≤ b0 ≤ 239 → Utf8.second_lo b0 ≤ b1 ≤ Utf8.second_hi b0 →
  128 ≤ b2 ≤ 191 →
  Utf8.encode_cp ((b0 - 224) * 4096 + (b1 - 128) * 64 + (b2 - 128))
  = Ok [b0; b1; b2].
Proof.
  intros H0 H1 H2. unfold Utf8.second_lo, Utf8.second_hi in H1.
  unfold Utf8.encode_cp.
  repeat match type of H1 with
         | context [?a =? ?b] => destruct (Z.eqb_spec a b)
         end;
    range_cases; try lia;
    (do 2 f_equal; [zdiv|f_equal; [zdiv|f_equal; zdiv]]).
Qed.

Lemma utf8_encode_cp_4 b0 b1 b2 b3 :
  240 ≤ b0 ≤ 244 → Utf8.second_lo b0 ≤ b1 ≤ Utf8.second_hi b0 →
  128 ≤ b2 ≤ 191 → 128 ≤ b3 ≤ 191 →
  Utf8.encode_cp ((b0 - 240) * 262144 + (b1 - 128) * 4096
                  + (b2 - 128) * 64 + (b3 - 128))
  = Ok [b0; b1; b2; b3].
Proof.
  intros H0 H1 H2 H3. unfold Utf8.second_lo, Utf8.second_hi in H1.
  unfold Utf8.encode_cp.
  repeat match type of H1 with
         | context [?a =? ?b] => destruct (Z.eqb_spec a b)
         end;
    range_cases; try lia;
    (do 2 f_equal; [zdiv|f_equal; [zdiv|f_equal; [zdiv|f_equal; zdiv]]]).
Qed.

Lemma replaced_or_wellformed_step c seq rest :
  Utf8.encode_cp c = Ok seq →
  replaced_or_wellformed rest →
  Utf8.REPLACEMENT ∈ c :: Utf8.decode rest
  ∨ Utf8.encode (c :: Utf8.decode rest) = Ok (seq ++ rest).
Proof.
  intros Hc [Hr|Hw].
  - left. by apply list_elem_of_further.
  - right. simpl. by rewrite Hc, Hw.
Qed.

Lemma utf8_decode_replaced_or_wellformed bs : replaced_or_wellformed bs.
Proof.
  assert (∀ n bs, (length bs ≤ n)%nat → replaced_or_wellformed bs) as H;
    [|by apply (H (length bs))].
  clear bs. induction n as [|n IH]; intros bs Hn.
  { destruct bs; simpl in Hn; [|lia]. by right. }
  assert (∀ r, Utf8.REPLACEMENT ∈ Utf8.REPLACEMENT :: r) as Hrep
    by (intros; apply list_elem_of_here).
  destruct bs as [|b0 r0]; [by right|]. simpl in Hn.
  unfold replaced_or_wellformed. rewrite utf8_decode_cons.
  destruct (Utf8.in_range 0 127 b0) eqn:E0.
  { apply in_range_true in E0.
    apply (replaced_or_wellformed_step b0 [b0] r0);
      [by apply utf8_encode_cp_1|apply IH; lia]. }
  destruct (Utf8.in_range 194 223 b0) eqn:E2.
  { apply in_range_true in E2.
    destruct r0 as [|b1 r1]; [by left|]. simpl in Hn.
    unfold Utf8.is_cont. destruct (Utf8.in_range 128 191 b1) eqn:E21; [|by left].
    apply in_range_true in E21.
    apply (replaced_or_wellformed_step _ [b0; b1] r1);
      [by apply utf8_encode_cp_2|apply IH; lia]. }
  destruct (Utf8.in_range 224 239 b0) eqn:E3.
  { apply in_range_true in E3.
    destruct r0 as [|b1 r1]; [by left|]. simpl in Hn.
    destruct (Utf8.in_range _ _ b1) eqn:E31; [|by left].
    apply in_range_true in E31.
    destruct r1 as [|b2 r2]; [by left|]. simpl in Hn.
    unfold Utf8.is_cont. destruct (Utf8.in_range 128 191 b2) eqn:E32; [|by left].
    apply in_range_true in E32.
    apply (replaced_or_wellformed_step _ [b0; b1; b2] r2);
      [by apply utf8_encode_cp_3|apply IH; lia]. }
  destruct (Utf8.in_range 240 244 b0) eqn:E4; [|by left].
  apply in_range_true in E4.
  destruct r0 as [|b1 r1]; [by left|]. simpl in Hn.
  destruct (Utf8.in_range _ _ b1) eqn:E41; [|by left].
  apply in_range_true in E41.
  destruct r1 as [|b2 r2]; [by left|]. simpl in Hn.
  unfold Utf8.is_cont. destruct (Utf8.in_range 128 191 b2) eqn:E42; [|by left].
  apply in_range_true in E42.
  destruct r2 as [|b3 r3]; [by left|]. simpl in Hn.
  destruct (Utf8.in_range 128 191 b3) eqn:E43; [|by left].
  apply in_range_true in E43.
  apply (replaced_or_wellformed_step _ [b0; b1; b2; b3] r3);
    [by apply utf8_encode_cp_4|apply IH; lia].
Qed.

(** Bytes that are the UTF-8 form of no text decode to a text that holds
    the replacement character. *)
Lemma utf8_decode_invalid bs :
  (∀ text, Utf8.encode text ≠ Ok bs) → Utf8.REPLACEMENT ∈ Utf8.decode bs.
Proof.
  intros Hinv. destruct (utf8_decode_replaced_or_wellformed bs) as [H|H];
    [done|]. by apply Hinv in H.
Qed.

(** Whatever the bytes, the decoded text is made of scalar values. *)
Lemma utf8_decode_scalar bs : Forall Utf8.is_scalar (Utf8.decode bs).
Proof.
  assert (∀ n bs, (length bs ≤ n)%nat → Forall Utf8.is_scalar (Utf8.decode bs))
    as H; [|by apply (H (length bs))].
  clear bs. induction n as [|n IH]; intros bs Hn.
  { destruct bs; simpl in Hn; [|lia]. constructor. }
  assert (Utf8.is_scalar Utf8.REPLACEMENT) as Hrep
    by (unfold Utf8.is_scalar, Utf8.REPLACEMENT; lia).
  destruct bs as [|b0 r0]; [constructor|]. simpl in Hn.
  rewrite utf8_decode_cons. unfold Utf8.is_cont.
  destruct (Utf8.in_range 0 127 b0) eqn:E0.
  { apply in_range_true in E0. constructor; [|apply IH; lia].
    unfold Utf8.is_scalar. lia. }
  destruct (Utf8.in_range 194 223 b0) eqn:E2.
  { apply in_range_true in E2.
    destruct r0 as [|b1 r1]; [by repeat constructor|]. simpl in Hn.
    destruct (Utf8.in_range 128 191 b1) eqn:E21.
    - apply in_range_true in E21. constructor; [|apply IH; lia].
      unfold Utf8.is_scalar. lia.
    - constructor; [done|apply IH; simpl; lia]. }
  destruct (Utf8.in_range 224 239 b0) eqn:E3.
  { apply in_range_true in E3.
    destruct r0 as [|b1 r1]; [by repeat constructor|]. simpl in Hn.
    destruct (Utf8.in_range _ _ b1) eqn:E31;
      [|constructor; [done|apply IH; simpl; lia]].
    apply in_range_true in E31.
    destruct r1 as [|b2 r2]; [by repeat constructor|]. simpl in Hn.
    destruct (Utf8.in_range 128 191 b2) eqn:E32;
      [|constructor; [done|apply IH; simpl; lia]].
    apply in_range_true in E32. constructor; [|apply IH; lia].
    unfold Utf8.is_scalar, Utf8.second_lo, Utf8.second_hi in *.
    revert E31. range_cases; lia. }
  destruct (Utf8.in_range 240 244 b0) eqn:E4;
    [|constructor; [done|apply IH; simpl; lia]].
  apply in_range_true in E4.
  destruct r0 as [|b1 r1]; [by repeat constructor|]. simpl in Hn.
  destruct (Utf8.in_range _ _ b1) eqn:E41;
    [|constructor; [done|apply IH; simpl; lia]].
  apply in_range_true in E41.
  destruct r1 as [|b2 r2]; [by repeat constructor|]. simpl in Hn.
  destruct (Utf8.in_range 128 191 b2) eqn:E42;
    [|constructor; [done|apply IH; simpl; lia]].
  apply in_range_true in E42.
  destruct r2 as [|b3 r3]; [by repeat constructor|]. simpl in Hn.
  destruct (Utf8.in_range 128 191 b3) eqn:E43;
    [|constructor; [done|apply IH; simpl; lia]].
  apply in_range_true in E43. constructor; [|apply IH; lia].
  unfold Utf8.is_scalar, Utf8.second_lo, Utf8.second_hi in *.
  revert E41. range_cases; lia.
Qed.

(** ** Decoding with replacement *)

Ltac range_hyps :=
  unfold Utf8.second_lo, Utf8.second_hi in *;
  repeat match goal with
    | H : context [?a =? ?b] |- _ => destruct (Z.eqb_spec a b)
    | |- context [?a =? ?b] => destruct (Z.eqb_spec a b)
    end;
  lia.

Lemma encode_cp_well_formed c seq :
  Utf8.encode_cp c = Ok seq → well_formed seq.
Proof.
  unfold Utf8.encode_cp.
  destruct (Z.ltb_spec c 0); [done|].
  destruct (Z.ltb_spec c 128); [intros [= <-]; simpl; lia|].
  destruct (Z.ltb_spec c 2048); [intros [= <-]; simpl; zdiv|].
  destruct (Z.ltb_spec c 65536).
  { destruct (Utf8.in_range 55296 57343 c) eqn:Es; [done|].
    apply in_range_false in Es. intros [= <-]. simpl.
    unfold Utf8.second_lo, Utf8.second_hi.
    repeat match goal with
      | |- context [?a =? ?b] => destruct (Z.eqb_spec a b)
      end; zdiv. }
  destruct (Z.leb_spec c 1114111); [|done].
  intros [= <-]. simpl. unfold Utf8.second_lo, Utf8.second_hi.
  repeat match goal with
    | |- context [?a =? ?b] => destruct (Z.eqb_spec a b)
    end; zdiv.
Qed.

Lemma well_formed_encode seq :
  well_formed seq → ∃ c, Utf8.encode_cp c = Ok seq.
Proof.
  destruct seq as [|b0 [|b1 [|b2 [|b3 [|b4 ?]]]]]; simpl; try done.
  - intros H. eexists. by apply utf8_encode_cp_1.
  - intros [H0 H1]. eexists. by apply utf8_encode_cp_2.
  - intros (H0 & H1 & H2). eexists. by apply utf8_encode_cp_3.
  - intros (H0 & H1 & H2 & H3). eexists. by apply utf8_encode_cp_4.
Qed.

Lemma starts_sequence_intro p seq :
  well_formed seq → p `prefix_of` seq → starts_sequence p.
Proof.
  intros Hwf Hp. destruct (well_formed_encode seq Hwf) as [c Hc].
  by exists c, seq.
Qed.

Lemma starts_sequence_prefix p q :
  p `prefix_of` q → starts_sequence q → starts_sequence p.
Proof.
  intros Hpq (c & seq & Hc & Hq). exists c, seq. split; [done|]. by etrans.
Qed.

(** Closes [¬ starts_sequence l] and [¬ seq `prefix_of` l] for a list [l]
    of known shape, from the ranges in the context. *)
Ltac no_sequence :=
  let c := fresh "c" in let seq := fresh "seq" in
  let Hc := fresh "Hc" in let k := fresh "k" in let Hk := fresh "Hk" in
  first [ intros (c & seq & Hc & [k Hk]) | intros c seq Hc [k Hk] ];
  apply encode_cp_well_formed in Hc;
  destruct seq as [|? [|? [|? [|? [|? ?]]]]]; simpl in Hc, Hk; try done;
  simplify_eq; range_hyps.

(** Closes [starts_sequence p] by the well-formed sequence [seq]. *)
Ltac yes_sequence seq :=
  apply (starts_sequence_intro _ seq);
  [ simpl; repeat split; range_hyps | by eexists ].

(** One step of the decoder: it reads the UTF-8 form of a scalar value,
    or replaces an invalid subsequence. *)
Lemma utf8_decode_step b0 r0 :
  (∃ c seq rest, Utf8.encode_cp c = Ok seq ∧ b0 :: r0 = seq ++ rest
                 ∧ Utf8.decode (b0 :: r0) = c :: Utf8.decode rest)
  ∨ (∃ bad rest, b0 :: r0 = bad ++ rest ∧ ill_formed_subsequence bad rest
                 ∧ Utf8.decode (b0 :: r0) = Utf8.REPLACEMENT :: Utf8.decode rest).
Proof.
  rewrite utf8_decode_cons. unfold Utf8.is_cont.
  destruct (Utf8.in_range 0 127 b0) eqn:E0;
    [apply in_range_true in E0|apply in_range_false in E0].
  { left. exists b0, [b0], r0. by rewrite utf8_encode_cp_1. }
  destruct (Utf8.in_range 194 223 b0) eqn:E2;
    [apply in_range_true in E2|apply in_range_false in E2].
  { destruct r0 as [|b1 r1].
    - right. exists [b0], []. split; [done|]. split; [|done].
      split; [done|]. split; [no_sequence|]. right.
      split; [yes_sequence [b0; 128]|done].
    - destruct (Utf8.in_range 128 191 b1) eqn:E21;
        [apply in_range_true in E21|apply in_range_false in E21].
      + left. eexists _, [b0; b1], r1. by rewrite utf8_encode_cp_2.
      + right. exists [b0], (b1 :: r1). split; [done|]. split; [|done].
        split; [done|]. split; [no_sequence|]. right.
        split; [yes_sequence [b0; 128]|].
        intros b rest' [= <- <-]. no_sequence. }
  destruct (Utf8.in_range 224 239 b0) eqn:E3;
    [apply in_range_true in E3|apply in_range_false in E3].
  { destruct r0 as [|b1 r1].
    { right. exists [b0], []. split; [done|]. split; [|done].
      split; [done|]. split; [no_sequence|]. right.
      split; [yes_sequence [b0; Utf8.second_lo b0; 128]|done]. }
    destruct (Utf8.in_range _ _ b1) eqn:E31;
      [apply in_range_true in E31|apply in_range_false in E31].
    2:{ right. exists [b0], (b1 :: r1). split; [done|]. split; [|done].
        split; [done|]. split; [no_sequence|]. right.
        split; [yes_sequence [b0; Utf8.second_lo b0; 128]|].
        intros b rest' [= <- <-]. no_sequence. }
    destruct r1 as [|b2 r2].
    { right. exists [b0; b1], []. split; [done|]. split; [|done].
      split; [done|]. split; [no_sequence|]. right.
      split; [yes_sequence [b0; b1; 128]|done]. }
    destruct (Utf8.in_range 128 191 b2) eqn:E32;
      [apply in_range_true in E32|apply in_range_false in E32].
    - left. eexists _, [b0; b1; b2], r2. by rewrite utf8_encode_cp_3.
    - right. exists [b0; b1], (b2 :: r2). split; [done|]. split; [|done].
      split; [done|]. split; [no_sequence|]. right.
      split; [yes_sequence [b0; b1; 128]|].
      intros b rest' [= <- <-]. no_sequence. }
  destruct (Utf8.in_range 240 244 b0) eqn:E4;
    [apply in_range_true in E4|apply in_range_false in E4].
  2:{ right. exists [b0], r0. split; [done|]. split; [|done].
      split; [done|]. split; [no_sequence|]. left.
      exists b0. split; [done|]. no_sequence. }
  destruct r0 as [|b1 r1].
  { right. exists [b0], []. split; [done|]. split; [|done].
    split; [done|]. split; [no_sequence|]. right.
    split; [yes_sequence [b0; Utf8.second_lo b0; 128; 128]|done]. }
  destruct (Utf8.in_range _ _ b1) eqn:E41;
    [apply in_range_true in E41|apply in_range_false in E41].
  2:{ right. exists [b0], (b1 :: r1). split; [done|]. split; [|done].
      split; [done|]. split; [no_sequence|]. right.
      split; [yes_sequence [b0; Utf8.second_lo b0; 128; 128]|].
      intros b rest' [= <- <-]. no_sequence. }
  destruct r1 as [|b2 r2].
  { right. exists [b0; b1], []. split; [done|]. split; [|done].
    split; [done|]. split; [no_sequence|]. right.
    split; [yes_sequence [b0; b1; 128; 128]|done]. }
  destruct (Utf8.in_range 128 191 b2) eqn:E42;
    [apply in_range_true in E42|apply in_range_false in E42].
  2:{ right. exists [b0; b1], (b2 :: r2). split; [done|]. split; [|done].
      split; [done|]. split; [no_sequence|]. right.
      split; [yes_sequence [b0; b1; 128; 128]|].
      intros b rest' [= <- <-]. no_sequence. }
  destruct r2 as [|b3 r3].
  { right. exists [b0; b1; b2], []. split; [done|]. split; [|done].
    split; [done|]. split; [no_sequence|]. right.
    split; [yes_sequence [b0; b1; b2; 128]|done]. }
  destruct (Utf8.in_range 128 191 b3) eqn:E43;
    [apply in_range_true in E43|apply in_range_false in E43].
  - left. eexists _, [b0; b1; b2; b3], r3. by rewrite utf8_encode_cp_4.
  - right. exists [b0; b1; b2], (b3 :: r3). split; [done|]. split; [|done].
    split; [done|]. split; [no_sequence|]. right.
    split; [yes_sequence [b0; b1; b2; 128]|].
    intros b rest' [= <- <-]. no_sequence.
Qed.


Lemma well_formed_not_nil seq : well_formed seq → seq ≠ [].
Proof. by destruct seq. Qed.

(** The decoder follows the relation. *)
Lemma utf8_decode_replaced bs : replaced_decoding bs (Utf8.decode bs).
Proof.
  assert (∀ n bs, (length bs ≤ n)%nat → replaced_decoding bs (Utf8.decode bs))
    as H; [|by apply (H (length bs))].
  clear bs. induction n as [|n IH]; intros bs Hn.
  { destruct bs; simpl in Hn; [constructor|lia]. }
  destruct bs as [|b0 r0]; [constructor|].
  destruct (utf8_decode_step b0 r0)
    as [(c & seq & rest & Hc & Heq & ->)|(bad & rest & Heq & Hbad & ->)];
    rewrite Heq.
  - apply replaced_char; [done|]. apply IH.
    pose proof (well_formed_not_nil _ (encode_cp_well_formed _ _ Hc)).
    apply (f_equal length) in Heq. rewrite length_app in Heq.
    destruct seq; [done|]. simpl in *. lia.
  - apply replaced_bad; [done|]. apply IH.
    destruct Hbad as [Hne _].
    apply (f_equal length) in Heq. rewrite length_app in Heq.
    destruct bad; [done|]. simpl in *. lia.
Qed.

(** Where an invalid subsequence ends is determined by the input. *)
Lemma ill_formed_subsequence_prefix bad rest bad' rest' :
  ill_formed_subsequence bad rest → ill_formed_subsequence bad' rest' →
  bad ++ rest = bad' ++ rest' → bad `prefix_of` bad' → bad = bad'.
Proof.
  intros (Hne & _ & Hmax) (_ & _ & Hmax') Heq [k ->].
  destruct k as [|b k]; [by rewrite app_nil_r|]. exfalso.
  rewrite <- app_assoc in Heq. apply app_inv_head in Heq.
  assert (starts_sequence (bad ++ b :: k) → starts_sequence (bad ++ [b])) as Hpre.
  { apply starts_sequence_prefix. exists k. by rewrite <- app_assoc. }
  destruct Hmax' as [(y & Hy & _)|[Hstart' _]].
  { destruct bad as [|x [|x' bad]]; [done|discriminate..]. }
  destruct Hmax as [(x & -> & Hx)|[_ Hmax]].
  - apply Hx. revert Hstart'. apply starts_sequence_prefix. by exists (b :: k).
  - by apply (Hmax b (k ++ rest')), Hpre.
Qed.

Lemma ill_formed_subsequence_unique bad rest bad' rest' :
  ill_formed_subsequence bad rest → ill_formed_subsequence bad' rest' →
  bad ++ rest = bad' ++ rest' → bad = bad' ∧ rest = rest'.
Proof.
  intros H H' Heq.
  assert (bad = bad') as ->.
  { destruct (prefix_weak_total bad bad' (bad ++ rest)) as [Hp|Hp].
    - by exists rest.
    - exists rest'. done.
    - by eapply ill_formed_subsequence_prefix.
    - symmetry. by eapply ill_formed_subsequence_prefix. }
  split; [done|]. by apply app_inv_head in Heq.
Qed.

(** The relation leaves no choice: it holds of the decoder's result
    only. *)
Lemma replaced_decoding_unique bs out :
  replaced_decoding bs out → out = Utf8.decode bs.
Proof.
  induction 1 as [|c seq rest out Hc _ IH|bad rest out Hbad _ IH].
  - done.
  - by rewrite (utf8_decode_encode_cp c seq rest Hc), IH.
  - subst out. pose proof Hbad as (Hne & Hno & _).
    assert (∃ b0 r0, bad ++ rest = b0 :: r0) as (b0 & r0 & Heq)
      by (destruct bad; [done|eauto]).
    rewrite Heq.
    destruct (utf8_decode_step b0 r0)
      as [(c & seq & rest' & Hc & Heq' & _)|(bad' & rest' & Heq' & Hbad' & ->)].
    + exfalso. apply (Hno c seq Hc). exists rest'. congruence.
    + rewrite <- Heq in Heq'.
      by destruct (ill_formed_subsequence_unique _ _ _ _ Hbad Hbad' Heq') as [_ ->].
Qed.

(** ** [decode] *)

(** The join raises at the first id that the vocabulary lacks. *)
Lemma join_vocab_missing (v : gmap Z (list Z)) (ids : list Z) (id : Z) :
  id ∈ ids → v !! id = None →
  ∃ pre k suf, ids = pre ++ k :: suf
               ∧ Forall (λ x, is_Some (v !! x)) pre
               ∧ v !! k = None
               ∧ join_vocab v ids = Raise (KeyError k).
Proof.
  induction ids as [|x ids IH]; intros Hin Hnone.
  - by apply elem_of_nil in Hin.
  - destruct (v !! x) as [bs|] eqn:Hx.
    + apply elem_of_cons in Hin as [->|Hin]; [congruence|].
      destruct (IH Hin Hnone) as (pre & k & suf & -> & Hpre & Hk & Hj).
      exists (x :: pre), k, suf. split; [done|]. split; [|split; [done|]].
      * constructor; [by rewrite Hx|done].
      * simpl. unfold vocab_get. rewrite Hx. simpl. by rewrite Hj.
    + exists [], x, ids. split; [done|]. split; [constructor|]. split; [done|].
      simpl. unfold vocab_get. by rewrite Hx.
Qed.

Lemma join_vocab_present (v : gmap Z (list Z)) (ids : list Z) :
  (∀ id, id ∈ ids → is_Some (v !! id)) → ∃ bs, join_vocab v ids = Ok bs.
Proof.
  induction ids as [|x ids IH]; intros H; simpl; [by eexists|].
  destruct (H x) as [bs Hx]; [apply list_elem_of_here|].
  destruct IH as [bs' Hj].
  { intros id Hid. by apply H, list_elem_of_further. }
  unfold vocab_get. rewrite Hx. simpl. rewrite Hj. simpl. by eexists.
Qed.


(** The join is the concatenation of the entries of the ids, in order. *)
Lemma join_vocab_entries (v : gmap Z (list Z)) (ids bs : list Z) :
  join_vocab v ids = Ok bs →
  ∃ entries, Forall2 (λ id e, v !! id = Some e) ids entries
             ∧ bs = concat entries.
Proof.
  revert bs. induction ids as [|x ids IH]; intros bs; cbn [join_vocab].
  - intros [= <-]. exists []. split; [constructor|done].
  - intros H. apply bind_Ok in H as (e & He & H).
    apply bind_Ok in H as (bs' & Hbs' & [= <-]).
    apply vocab_get_Ok in He. destruct (IH _ Hbs') as (entries & Hall & ->).
    exists (e :: entries). split; [by constructor|done].
Qed.

(** C7: [decode] raises [KeyError] at the first id that is absent from
    the vocabulary (nothing is skipped or substituted).  When every id is
    present it does not fail: it returns the one text that decoding with
    replacement assigns to the concatenated entries, in which the UTF-8
    form of a scalar value gives that value and each invalid byte
    subsequence gives one U+FFFD.  That text is made of scalar values; it
    is the original text when the bytes are the UTF-8 form of one, and
    holds U+FFFD when they are the UTF-8 form of none. *)
Theorem decode_errors (tok : tokenizer) (ids : list Z) :
  (∀ id, id ∈ ids → vocab tok !! id = None →
     ∃ pre k suf, ids = pre ++ k :: suf
                  ∧ Forall (λ x, is_Some (vocab tok !! x)) pre
                  ∧ vocab tok !! k = None
                  ∧ decode tok ids = Raise (KeyError k))
  ∧ ((∀ id, id ∈ ids → is_Some (vocab tok !! id)) →
     ∃ entries text,
       Forall2 (λ id e, vocab tok !! id = Some e) ids entries
       ∧ decode tok ids = Ok text
       ∧ replaced_decoding (concat entries) text
       ∧ (∀ out, replaced_decoding (concat entries) out → out = text)
       ∧ (∀ t, Utf8.encode t = Ok (concat entries) → text = t)
       ∧ ((∀ t, Utf8.encode t ≠ Ok (concat entries)) →
          Utf8.REPLACEMENT ∈ text)
       ∧ Forall Utf8.is_scalar text).
Proof.
  split.
  - intros id Hin Hnone.
    destruct (join_vocab_missing _ _ _ Hin Hnone) as (pre & k & suf & ? & ? & ? & Hj).
    exists pre, k, suf. repeat split; try done.
    unfold decode. by rewrite Hj.
  - intros Hall. destruct (join_vocab_present _ _ Hall) as [bs Hj].
    destruct (join_vocab_entries _ _ _ Hj) as (entries & Hentries & ->).
    exists entries, (Utf8.decode (concat entries)).
    split; [done|]. split; [unfold decode; by rewrite Hj|].
    split; [apply utf8_decode_replaced|].
    split; [apply replaced_decoding_unique|].
    split; [intros t Ht; by apply utf8_decode_encode|].
    split; [apply utf8_decode_invalid|apply utf8_decode_scalar].
Qed.

(** The two error cases on the seed vocabulary: id 300 is absent; the
    bytes [0xE2 0x82] are a truncated sequence, [0xFF] is no lead byte. *)
Example decode_absent_id :
  decode (Tokenizer ∅ seed_vocab) [104; 300; 105] = Raise (KeyError 300).
Proof. reflexivity. Qed.

Example decode_invalid_bytes :
  decode (Tokenizer ∅ seed_vocab) [226; 130; 65; 255]
  = Ok [Utf8.REPLACEMENT; 65; Utf8.REPLACEMENT].
Proof. reflexivity. Qed.

(** ** Round trip *)

Lemma join_vocab_bytes (v : gmap Z (list Z)) (bs : list Z) :
  seeded v → Forall is_byte bs → join_vocab v bs = Ok bs.
Proof.
  intros Hseed. induction 1 as [|b bs Hb _ IH]; simpl; [done|].
  unfold vocab_get. rewrite (Hseed b Hb). simpl. by rewrite IH.
Qed.

(** Replacing a pair by its id does not change the bytes the sequence
    stands for. *)
Lemma join_vocab_merge (m : gmap (Z * Z) Z) (v : gmap Z (list Z))
    (ids : list Z) (pair : Z * Z) (idx : Z) (bs : list Z) :
  learned m v → m !! pair = Some idx →
  join_vocab v ids = Ok bs →
  join_vocab v (merge ids pair idx) = Ok bs.
Proof.
  intros Hlearned Hpair. destruct pair as [L R].
  destruct (Hlearned L R idx Hpair) as (l & r & HL & HR & Hidx).
  revert bs. induction ids as [| a | a b rest IH1 IH2] using scan_ind;
    intros bs; [done..|].
  rewrite merge_cons2. simpl fst. simpl snd.
  destruct (bool_decide (a = L) && bool_decide (b = R)) eqn:E.
  - apply andb_true_iff in E as [Ea Eb].
    apply bool_decide_eq_true in Ea, Eb. subst a b.
    cbn [join_vocab]. unfold vocab_get. rewrite HL, HR, Hidx. simpl.
    intros H. apply bind_Ok in H as (y & Hy & [= <-]).
    apply bind_Ok in Hy as (z & Hz & [= <-]).
    rewrite (IH1 z Hz). simpl. by rewrite app_assoc.
  - change (join_vocab v (a :: b :: rest))
      with (vocab_get v a ≫= λ x, join_vocab v (b :: rest) ≫= λ y, Ok (x ++ y)).
    change (join_vocab v (a :: merge (b :: rest) (L, R) idx))
      with (vocab_get v a ≫= λ x,
            join_vocab v (merge (b :: rest) (L, R) idx) ≫= λ y, Ok (x ++ y)).
    intros H. apply bind_Ok in H as (x & Hx & H).
    apply bind_Ok in H as (y & Hy & [= <-]).
    rewrite Hx. unfold mbind, result_bind. by rewrite (IH2 y Hy).
Qed.

Lemma encode_loop_join (fuel : nat) (m : gmap (Z * Z) Z) (v : gmap Z (list Z))
    (ids out bs : list Z) :
  learned m v →
  encode_loop fuel m ids = Ok out →
  join_vocab v ids = Ok bs → join_vocab v out = Ok bs.
Proof.
  intros Hlearned. revert ids. induction fuel as [|fuel IH]; intros ids;
    rewrite encode_loop_unfold;
    destruct (2 <=? Z.of_nat (length ids)); try done; try by intros [= <-].
  intros H. inv_bind H. destruct (m !! a) as [idx|] eqn:Ha.
  - intros Hj. eapply IH; [exact H|]. by eapply join_vocab_merge.
  - by injection H as <-.
Qed.

(** A merge table and a vocabulary that fit together round-trip every
    text that has a UTF-8 form. *)
Lemma roundtrip_consistent (tok : tokenizer) (s : list Z) :
  seeded (vocab tok) → learned (merges tok) (vocab tok) →
  Forall Utf8.is_scalar s →
  ∃ ids, encode tok s = Ok ids ∧ decode tok ids = Ok s.
Proof.
  intros Hseed Hlearned Hs.
  apply utf8_encode_scalar in Hs as [bs Hbs].
  destruct (encode_loop_enough (length bs) (merges tok) bs) as [ids Hids]; [lia|].
  exists ids. unfold encode, decode. rewrite Hbs. simpl. split; [done|].
  rewrite (encode_loop_join _ _ (vocab tok) _ _ bs Hlearned Hids).
  - simpl. by rewrite (utf8_decode_encode s bs).
  - apply join_vocab_bytes; [done|]. by eapply utf8_encode_bytes.
Qed.

(** ** The three strategies *)

Section TrainerGrowth.
Variable choose : list Z → result (Z * Z).
Variable replace : list Z → Z * Z → Z → list Z.

Lemma train_with_consistent text vocab_size tok :
  train_with choose replace text vocab_size = Ok tok →
  seeded (vocab tok) ∧ learned (merges tok) (vocab tok).
Proof.
  intros H. apply train_with_Ok in H as (_ & ids & st & _ & Hrun & ->).
  destruct (train_loop_inv _ _ _ _ _ _ Hrun (train_init_inv ids)) as [[] _].
  by split.
Qed.

Lemma train_with_grown text vocab_size tok :
  train_with choose replace text vocab_size = Ok tok →
  vocabulary_grown (train_with choose replace) text vocab_size tok.
Proof.
  intros H. apply train_with_Ok in H as (Hvs & ids & st & Henc & Hrun & ->).
  set (k := Z.to_nat (vocab_size - 256)) in *.
  destruct (train_loop_inv _ _ _ _ _ _ Hrun (train_init_inv ids))
    as [[_ Hseed Hsize _] _].
  unfold vocabulary_grown. fold k. cbn [vocab merges].
  split; [done|]. split; [done|]. split.
  - intros i Hi.
    replace k with (i + S (k - S i))%nat in Hrun by lia.
    apply train_loop_prefix in Hrun as (st_i & Hpre & Hrest).
    cbn [train_loop] in Hrest.
    apply bind_Ok in Hrest as (st_i' & Hiter & Hrest).
    change (0 + i)%nat with i in *.
    destruct (train_loop_inv _ _ _ _ _ _ Hpre (train_init_inv ids))
      as [Hinv_i _].
    destruct (train_iter_inv _ _ _ _ _ Hiter Hinv_i) as (Hinv_i' & Hfresh & _).
    destruct (train_loop_inv _ _ _ _ _ _ Hrest Hinv_i') as [_ Hsub].
    assert (train_loop choose replace (S i) 0 (train_init ids) = Ok st_i')
      as Hpre'.
    { replace (S i) with (i + 1)%nat by lia.
      rewrite train_loop_app, Hpre. cbn [mbind result_bind train_loop].
      change (0 + i)%nat with i. rewrite Hiter. reflexivity. }
    apply train_iter_Ok in Hiter as (L & R & l & r & Hch & HL & HR & Hst').
    exists (Tokenizer (ts_merges st_i) (ts_vocab st_i)),
      (Tokenizer (ts_merges st_i') (ts_vocab st_i')), L, R, l, r.
    split; [exact (train_with_prefix _ _ text ids i st_i Henc Hpre)|].
    split; [exact (train_with_prefix _ _ text ids (S i) st_i' Henc Hpre')|].
    cbn [vocab merges]. split; [done|].
    split; [by rewrite Hst'|]. split; [by rewrite Hst'|].
    assert (ts_vocab st_i' = <[256 + Z.of_nat i := l ++ r]> (ts_vocab st_i))
      as Hv' by by rewrite Hst'.
    repeat split.
    + eapply lookup_weaken; [|exact Hsub]. rewrite Hv'.
      rewrite lookup_insert_ne; [done|]. intros <-. congruence.
    + eapply lookup_weaken; [|exact Hsub]. rewrite Hv'.
      rewrite lookup_insert_ne; [done|]. intros <-. congruence.
    + eapply lookup_weaken; [|exact Hsub]. rewrite Hv'.
      apply lookup_insert_eq.
  - intros j Hj.
    replace k with (j + (k - j))%nat in Hrun by lia.
    apply train_loop_prefix in Hrun as (st_j & Hpre & Hrest).
    destruct (train_loop_inv _ _ _ _ _ _ Hpre (train_init_inv ids))
      as [Hinv_j _].
    destruct (train_loop_inv _ _ _ _ _ _ Hrest Hinv_j) as [_ Hsub].
    exists (Tokenizer (ts_merges st_j) (ts_vocab st_j)).
    split; [exact (train_with_prefix _ _ text ids j st_j Henc Hpre)|done].
Qed.
End TrainerGrowth.

Lemma vocabulary_grown_ext T T' text vocab_size tok :
  (∀ v t, T text v = Ok t → T' text v = Ok t) →
  vocabulary_grown T text vocab_size tok →
  vocabulary_grown T' text vocab_size tok.
Proof.
  intros Hext (Hsize & Hseed & Hstep & Hmono).
  repeat split; [done|done| |].
  - intros i Hi.
    destruct (Hstep i Hi) as (b & a & L & R & l & r & Hb & Ha & Hrest).
    exists b, a, L, R, l, r. split; [by apply Hext|]. split; [by apply Hext|done].
  - intros j Hj. destruct (Hmono j Hj) as (tj & Htj & Hsub).
    exists tj. split; [by apply Hext|done].
Qed.

Lemma train_by_consistent s text vocab_size tok :
  train_by s text vocab_size = Ok tok →
  seeded (vocab tok) ∧ learned (merges tok) (vocab tok).
Proof.
  destruct s; simpl; intros H.
  - by eapply train_with_consistent.
  - by eapply train_with_consistent.
  - apply train_gpu_vectorized in H. by eapply train_with_consistent.
Qed.

Lemma scenario_trained : train scenario_text 259 = Ok scenario_tokenizer.
Proof. vm_compute. reflexivity. Qed.

(** C8: after a run of any strategy that performs [k = vocab_size - 256]
    merges the vocabulary has [256 + k] entries; ids below 256 map to
    their own byte; the id [256 + i] minted in iteration [i] for the pair
    [(L, R)] maps to the bytes of [L] followed by the bytes of [R]; that
    entry was absent before the iteration and is the same in every later
    state. *)
Theorem vocabulary_growth (s : strategy) (text : list Z) (vocab_size : Z)
    (tok : tokenizer) :
  train_by s text vocab_size = Ok tok →
  vocabulary_grown (train_by s) text vocab_size tok.
Proof.
  destruct s; simpl; intros H.
  - by apply train_with_grown.
  - by apply train_with_grown.
  - apply train_gpu_vectorized in H.
    eapply vocabulary_grown_ext; [|by apply train_with_grown].
    intros v t Ht. by apply train_gpu_vectorized.
Qed.

Lemma vocabulary_growth_witness :
  vocabulary_grown train scenario_text 259 scenario_tokenizer.
Proof.
  apply (vocabulary_growth Sequential scenario_text 259 scenario_tokenizer).
  exact scenario_trained.
Defined.

(** C4: for every text [s] of scalar values (every UTF-8 string) and
    every tokenizer returned by a training run of any strategy, [encode]
    returns a sequence that [decode] turns back into [s]. *)
Theorem decode_encode_roundtrip (s : strategy) (text : list Z) (vocab_size : Z)
    (tok : tokenizer) (str : list Z) :
  train_by s text vocab_size = Ok tok →
  Forall Utf8.is_scalar str →
  ∃ ids, encode tok str = Ok ids ∧ decode tok ids = Ok str.
Proof.
  intros Htrain Hstr. apply train_by_consistent in Htrain as [Hseed Hlearned].
  by apply roundtrip_consistent.
Qed.

Lemma decode_encode_roundtrip_witness :
  ∃ ids, encode scenario_tokenizer [97; 97; 98; 8364; 97; 97] = Ok ids
         ∧ decode scenario_tokenizer ids = Ok [97; 97; 98; 8364; 97; 97].
Proof.
  apply (decode_encode_roundtrip Sequential scenario_text 259).
  - exact scenario_trained.
  - unfold Utf8.is_scalar. repeat constructor; lia.
Defined.

(** ** The pair an iteration selects *)

Lemma occurrences_app p l1 l2 :
  occurrences p (l1 ++ l2) = occurrences p l1 + occurrences p l2.
Proof. induction l1 as [|q l1 IH]; simpl; [done|]. rewrite IH. lia. Qed.

Lemma occurrences_nonneg p l : 0 ≤ occurrences p l.
Proof. induction l as [|q l IH]; simpl; [done|]. case_bool_decide; lia. Qed.

Lemma occurrences_pos p l : p ∈ l ↔ 0 < occurrences p l.
Proof.
  induction l as [|q l IH]; simpl.
  - rewrite elem_of_nil. lia.
  - pose proof (occurrences_nonneg p l). rewrite elem_of_cons, IH.
    case_bool_decide; subst; split; try lia; try tauto.
    intros [?|?]; [congruence|lia].
Qed.

(** [max] returns the first element with the greatest key: the elements
    before it have a smaller key, those after it no greater one. *)
Lemma py_max_from_split {A} (f : A → Z) (x : A) (l : list A) :
  ∃ k1 k2, x :: l = k1 ++ py_max_from f x l :: k2
           ∧ (∀ y, y ∈ k1 → f y < f (py_max_from f x l))
           ∧ (∀ y, y ∈ k2 → f y ≤ f (py_max_from f x l)).
Proof.
  revert x. induction l as [|z l IH]; intros x; simpl.
  - exists [], []. split; [done|]. split; intros y Hy; by apply elem_of_nil in Hy.
  - destruct (Z.ltb_spec (f x) (f z)) as [Hlt|Hge].
    + destruct (IH z) as (k1 & k2 & Heq & H1 & H2).
      exists (x :: k1), k2. split; [simpl; by rewrite <- Heq|]. split; [|done].
      assert (f z ≤ f (py_max_from f z l)) as Hz.
      { assert (z ∈ k1 ++ py_max_from f z l :: k2) as Hin
          by (rewrite <- Heq; apply list_elem_of_here).
        apply elem_of_app in Hin as [Hin|Hin]; [apply H1 in Hin; lia|].
        apply elem_of_cons in Hin as [<-|Hin]; [lia|by apply H2]. }
      intros y Hy. apply elem_of_cons in Hy as [->|Hy]; [lia|by apply H1].
    + destruct (IH x) as (k1 & k2 & Heq & H1 & H2).
      destruct k1 as [|x' k1].
      * simpl in Heq. injection Heq as Hx Hl.
        exists [], (z :: l). rewrite <- Hx. split; [done|].
        split; [intros y Hy; by apply elem_of_nil in Hy|].
        intros y Hy. apply elem_of_cons in Hy as [->|Hy]; [lia|].
        rewrite Hx. apply H2. by rewrite <- Hl.
      * simpl in Heq. injection Heq as <- Hl.
        exists (x :: z :: k1), k2. split; [simpl; do 2 f_equal; exact Hl|].
        split; [|done].
        assert (f x < f (py_max_from f x l)) as Hx
          by apply H1, list_elem_of_here.
        intros y Hy. apply elem_of_cons in Hy as [->|Hy]; [done|].
        apply elem_of_cons in Hy as [->|Hy]; [lia|].
        by apply H1, list_elem_of_further.
Qed.

(** *** [train]: the dict of [get_stats] *)

Lemma count_pair_get counts q p :
  stats_get (count_pair counts q) p
  = stats_get counts p + (if bool_decide (q = p) then 1 else 0).
Proof.
  induction counts as [|[k c] rest IH]; simpl.
  - case_bool_decide; lia.
  - destruct (bool_decide (k = q)) eqn:Ekq; simpl.
    + apply bool_decide_eq_true in Ekq. subst k.
      case_bool_decide; lia.
    + apply bool_decide_eq_false in Ekq.
      destruct (bool_decide (k = p)) eqn:Ekp; [|exact IH].
      apply bool_decide_eq_true in Ekp. subst k.
      rewrite bool_decide_eq_false_2 by congruence. lia.
Qed.

Lemma foldl_count_pair_get l counts p :
  stats_get (foldl count_pair counts l) p = stats_get counts p + occurrences p l.
Proof.
  revert counts. induction l as [|q l IH]; intros counts; simpl; [lia|].
  rewrite IH, count_pair_get. lia.
Qed.

(** The count [stats.get] reports is the number of occurrences. *)
Lemma get_stats_get ids p :
  stats_get (get_stats ids) p = occurrences p (adjacent_pairs ids).
Proof. unfold get_stats. by rewrite foldl_count_pair_get. Qed.

(** *** The array strategies: sorted [unique] and [argmax] *)

Lemma pair_ltb_lt p q : pair_ltb p q = true ↔ pair_lt p q.
Proof.
  unfold pair_ltb, pair_lt.
  rewrite orb_true_iff, andb_true_iff, !Z.ltb_lt, Z.eqb_eq. tauto.
Qed.

Lemma pair_lt_irrefl p : ¬ pair_lt p p.
Proof. unfold pair_lt. lia. Qed.

Lemma pair_lt_trans p q r : pair_lt p q → pair_lt q r → pair_lt p r.
Proof. unfold pair_lt. lia. Qed.

Lemma pair_lt_total p q : ¬ pair_lt p q → p ≠ q → pair_lt q p.
Proof.
  destruct p as [p1 p2], q as [q1 q2]. unfold pair_lt. simpl.
  intros H1 H2.
  destruct (decide (p1 = q1)); [|lia].
  destruct (decide (p2 = q2)); [congruence|lia].
Qed.

Lemma unique_insert_keys p u q :
  q ∈ (unique_insert p u).*1 ↔ q = p ∨ q ∈ u.*1.
Proof.
  induction u as [|[k c] rest IH]; simpl.
  - rewrite list_elem_of_singleton. set_solver.
  - destruct (pair_ltb p k); simpl.
    + rewrite !elem_of_cons. tauto.
    + case_bool_decide as E; simpl.
      * subst k. rewrite !elem_of_cons. tauto.
      * rewrite !elem_of_cons, IH. tauto.
Qed.

(** The rows of [unique] are strictly ascending. *)
Lemma unique_insert_sorted p u :
  StronglySorted pair_lt u.*1 → StronglySorted pair_lt (unique_insert p u).*1.
Proof.
  induction u as [|[k c] rest IH]; simpl; intros Hs.
  - repeat constructor.
  - apply StronglySorted_inv in Hs as [Hs Hk].
    destruct (pair_ltb p k) eqn:Elt; simpl.
    + apply pair_ltb_lt in Elt. constructor; [by constructor|].
      constructor; [done|]. eapply Forall_impl; [exact Hk|].
      intros x Hx. by eapply pair_lt_trans.
    + case_bool_decide as E; simpl; [by constructor|].
      constructor; [by apply IH|].
      apply Forall_forall. intros x Hx.
      apply unique_insert_keys in Hx as [->|Hx].
      * apply pair_lt_total; [|done]. intros H. apply pair_ltb_lt in H. congruence.
      * rewrite Forall_forall in Hk. by apply Hk.
Qed.

Lemma stats_get_absent u q : q ∉ u.*1 → stats_get u q = 0.
Proof.
  induction u as [|[k c] rest IH]; simpl; [done|].
  rewrite not_elem_of_cons. intros [Hne Hq].
  rewrite bool_decide_eq_false_2 by congruence. by apply IH.
Qed.

Lemma unique_insert_get p u q :
  StronglySorted pair_lt u.*1 →
  stats_get (unique_insert p u) q
  = stats_get u q + (if bool_decide (p = q) then 1 else 0).
Proof.
  induction u as [|[k c] rest IH]; simpl; intros Hs.
  - case_bool_decide; lia.
  - apply StronglySorted_inv in Hs as [Hs Hk].
    destruct (pair_ltb p k) eqn:Elt; simpl.
    + apply pair_ltb_lt in Elt.
      destruct (bool_decide (p = q)) eqn:Epq; [|lia].
      apply bool_decide_eq_true in Epq. subst q.
      rewrite bool_decide_eq_false_2.
      2:{ intros ->. by apply pair_lt_irrefl in Elt. }
      rewrite stats_get_absent; [lia|].
      intros Hin. rewrite Forall_forall in Hk. apply Hk in Hin.
      eapply pair_lt_irrefl, pair_lt_trans; eauto.
    + destruct (bool_decide (p = k)) eqn:Epk; simpl.
      * apply bool_decide_eq_true in Epk. subst k.
        destruct (bool_decide (p = q)); lia.
      * apply bool_decide_eq_false in Epk.
        destruct (bool_decide (k = q)) eqn:Ekq; [|by apply IH].
        apply bool_decide_eq_true in Ekq. subst k.
        rewrite bool_decide_eq_false_2 by done. lia.
Qed.

Lemma np_unique_counts_sorted rows :
  StronglySorted pair_lt (np_unique_counts rows).*1.
Proof.
  induction rows as [|p rows IH]; simpl; [constructor|].
  by apply unique_insert_sorted.
Qed.

Lemma np_unique_counts_keys rows q :
  q ∈ (np_unique_counts rows).*1 ↔ q ∈ rows.
Proof.
  induction rows as [|p rows IH]; simpl; [done|].
  rewrite unique_insert_keys, IH, elem_of_cons. tauto.
Qed.

(** The count of a row is the number of its occurrences. *)
Lemma np_unique_counts_get rows q :
  stats_get (np_unique_counts rows) q = occurrences q rows.
Proof.
  induction rows as [|p rows IH]; simpl; [done|].
  rewrite unique_insert_get by apply np_unique_counts_sorted.
  rewrite IH. lia.
Qed.

(** In a list without repeated keys an entry is what a lookup finds. *)
Lemma stats_get_entry u q c :
  StronglySorted pair_lt u.*1 → (q, c) ∈ u → stats_get u q = c.
Proof.
  induction u as [|[k c0] rest IH]; simpl; intros Hs Hin.
  - by apply elem_of_nil in Hin.
  - apply StronglySorted_inv in Hs as [Hs Hk].
    apply elem_of_cons in Hin as [[= <- <-]|Hin].
    + by rewrite bool_decide_eq_true_2.
    + rewrite bool_decide_eq_false_2; [by apply IH|].
      intros ->. rewrite Forall_forall in Hk.
      apply (pair_lt_irrefl q), Hk.
      apply list_elem_of_fmap. by exists (q, c).
Qed.

(** [unique[argmax(counts)]] is the first row with the greatest count. *)
Lemma argmax_from_py_max (l pre : list ((Z * Z) * Z)) (best : (Z * Z) * Z) (bi : nat) :
  (pre ++ l) !! bi = Some best →
  (pre ++ l).*1 !! argmax_from bi best.2 (length pre) l.*2
  = Some (py_max_from snd best l).1.
Proof.
  revert pre best bi. induction l as [|x l IH]; intros pre best bi Hbest; simpl.
  - rewrite list_lookup_fmap, Hbest. done.
  - rewrite (cons_middle x pre l), app_assoc in Hbest |- *.
    replace (S (length pre)) with (length (pre ++ [x]))
      by (rewrite length_app; simpl; lia).
    destruct (best.2 <? x.2).
    + apply IH. rewrite <- app_assoc. simpl. by apply list_lookup_middle.
    + by apply IH.
Qed.

Lemma array_choose_py_max e ids :
  array_choose e ids =
  match np_unique_counts (np_pairs ids) with
  | [] => Raise e
  | x :: rest => Ok (py_max_from snd x rest).1
  end.
Proof.
  unfold array_choose.
  destruct (np_unique_counts (np_pairs ids)) as [|x rest] eqn:E; [done|].
  pose proof (argmax_from_py_max rest [x] x 0 eq_refl) as H.
  change ([x] ++ rest) with (x :: rest) in H.
  change (length [x]) with 1%nat in H.
  change ((x :: rest).*2) with (x.2 :: rest.*2).
  cbn [argmax mbind result_bind]. by rewrite H.
Qed.

(** The array strategies merge the lexicographically least pair among
    those with the greatest count. *)
Lemma array_choose_least e ids p :
  array_choose e ids = Ok p →
  p ∈ adjacent_pairs ids
  ∧ (∀ q, occurrences q (adjacent_pairs ids) ≤ occurrences p (adjacent_pairs ids))
  ∧ (∀ q, q ∈ adjacent_pairs ids →
       occurrences q (adjacent_pairs ids) = occurrences p (adjacent_pairs ids) →
       q = p ∨ pair_lt p q).
Proof.
  rewrite array_choose_py_max, np_pairs_adjacent.
  set (rows := adjacent_pairs ids).
  pose proof (np_unique_counts_sorted rows) as Hsorted.
  pose proof (np_unique_counts_keys rows) as Hkeys.
  pose proof (np_unique_counts_get rows) as Hget.
  destruct (np_unique_counts rows) as [|x rest] eqn:E; [done|].
  intros [= <-].
  destruct (py_max_from_split snd x rest) as (k1 & k2 & Heq & H1 & H2).
  set (best := py_max_from snd x rest) in *.
  rewrite Heq in Hsorted, Hkeys, Hget.
  assert (best ∈ k1 ++ best :: k2) as Hbest
    by (apply elem_of_app; right; apply list_elem_of_here).
  assert (∀ q c, (q, c) ∈ k1 ++ best :: k2 → c = occurrences q rows) as Hentry.
  { intros q c Hin. rewrite <- Hget. symmetry. by apply stats_get_entry. }
  assert (best.2 = occurrences best.1 rows) as Hm.
  { apply Hentry. by destruct best. }
  assert (∀ q, q ∈ rows → ∃ c, (q, c) ∈ k1 ++ best :: k2) as Hrow.
  { intros q Hq. apply Hkeys, list_elem_of_fmap in Hq as ([q' c] & -> & Hin).
    by exists c. }
  split; [|split].
  - apply Hkeys, list_elem_of_fmap. by exists best.
  - intros q. destruct (decide (q ∈ rows)) as [Hin|Hout].
    + destruct (Hrow q Hin) as [c Hc]. rewrite <- (Hentry q c Hc), <- Hm.
      apply elem_of_app in Hc as [Hc|Hc]; [apply H1 in Hc; simpl in Hc; lia|].
      apply elem_of_cons in Hc as [<-|Hc]; [simpl; lia|].
      apply H2 in Hc. exact Hc.
    + pose proof (occurrences_nonneg best.1 rows).
      rewrite occurrences_pos in Hout.
      pose proof (occurrences_nonneg q rows). lia.
  - intros q Hin Htie. destruct (Hrow q Hin) as [c Hc].
    pose proof (Hentry q c Hc) as Hcq.
    apply elem_of_app in Hc as [Hc|Hc].
    { apply H1 in Hc. simpl in Hc. lia. }
    apply elem_of_cons in Hc as [<-|Hc]; [by left|]. right.
    rewrite fmap_app, fmap_cons in Hsorted.
    apply StronglySorted_app in Hsorted as (_ & _ & Hsorted).
    apply StronglySorted_inv in Hsorted as [_ Hall].
    rewrite Forall_forall in Hall. apply Hall.
    apply list_elem_of_fmap. by exists (q, c).
Qed.

(** ** [train] against the array strategies *)

Lemma py_max_greatest {A} (f : A → Z) (l : list A) :
  l ≠ [] →
  ∃ r, py_max f l = Ok r ∧ r ∈ l ∧ ∀ y, y ∈ l → f y ≤ f r.
Proof.
  destruct l as [|x l]; [done|]. intros _. exists (py_max_from f x l).
  split; [done|].
  destruct (py_max_from_split f x l) as (k1 & k2 & Heq & H1 & H2).
  rewrite Heq. split.
  - apply elem_of_app. right. apply list_elem_of_here.
  - intros y Hy. apply elem_of_app in Hy as [Hy|Hy]; [apply H1 in Hy; lia|].
    apply elem_of_cons in Hy as [->|Hy]; [lia|by apply H2].
Qed.

(** Whatever the order of the dict, [train] picks an adjacent pair of
    greatest count. *)
Lemma train_choose_in_order_greatest reorder ids :
  (∀ l, reorder l ≡ₚ l) → (2 ≤ length ids)%nat →
  ∃ p, train_choose_in_order reorder ids = Ok p
       ∧ p ∈ adjacent_pairs ids
       ∧ ∀ q, occurrences q (adjacent_pairs ids)
              ≤ occurrences p (adjacent_pairs ids).
Proof.
  intros Hperm Hlen. unfold train_choose_in_order.
  assert (∀ q, q ∈ (reorder (get_stats ids)).*1 ↔ q ∈ adjacent_pairs ids) as Hkeys.
  { intros q. rewrite <- get_stats_keys. by rewrite (Hperm (get_stats ids)). }
  destruct (py_max_greatest (stats_get (get_stats ids)) (reorder (get_stats ids)).*1)
    as (p & Hp & Hin & Hmax).
  { destruct ids as [|a [|b rest]]; simpl in Hlen; try lia.
    intros Hnil.
    assert ((a, b) ∈ (reorder (get_stats (a :: b :: rest))).*1) as H.
    { apply Hkeys. rewrite adjacent_pairs_cons. apply list_elem_of_here. }
    rewrite Hnil in H. by apply elem_of_nil in H. }
  exists p. split; [done|]. split; [by apply Hkeys|].
  intros q. rewrite <- !get_stats_get.
  destruct (decide (q ∈ adjacent_pairs ids)) as [Hq|Hq].
  - by apply Hmax, Hkeys.
  - rewrite (get_stats_get ids q), (get_stats_get ids p).
    pose proof (occurrences_nonneg p (adjacent_pairs ids)).
    rewrite occurrences_pos in Hq.
    pose proof (occurrences_nonneg q (adjacent_pairs ids)). lia.
Qed.

Lemma train_iter_intro choose replace i st L R l r :
  choose (ts_ids st) = Ok (L, R) →
  ts_vocab st !! L = Some l → ts_vocab st !! R = Some r →
  train_iter choose replace i st
  = Ok (TrainState (replace (ts_ids st) (L, R) (256 + Z.of_nat i))
          (<[(L, R) := 256 + Z.of_nat i]> (ts_merges st))
          (<[256 + Z.of_nat i := l ++ r]> (ts_vocab st))).
Proof.
  intros Hch HL HR. unfold train_iter. rewrite Hch. cbn [mbind result_bind].
  unfold vocab_get. cbn [fst snd]. by rewrite HL, HR.
Qed.

(** C1: on ["aaab"] with two merges the strategies part.  All merge
    [(97, 97)] first, the only pair of greatest count.  [train] goes on
    from [256, 97, 98], whose pairs are [(256, 97)] and [(97, 98)], and
    learns one of them, whatever the order of its dict; the mask of
    [train_vectorized] has lost a token: it goes on from [256, 98] and
    learns [(256, 98)], and so does every run of [train_gpu] that
    returns. *)
Theorem train_differs_from_array_strategies
    (reorder : list ((Z * Z) * Z) → list ((Z * Z) * Z)) :
  (∀ l, reorder l ≡ₚ l) →
  ∃ t1 t2,
    train_in_order reorder [97; 97; 97; 98] 258 = Ok t1
    ∧ train_vectorized [97; 97; 97; 98] 258 = Ok t2
    ∧ (∀ t3, train_gpu [97; 97; 97; 98] 258 = Ok t3 → t3 = t2)
    ∧ (merges t1 !! (256, 97) = Some 257 ∨ merges t1 !! (97, 98) = Some 257)
    ∧ merges t1 !! (256, 98) = None
    ∧ merges t2 !! (256, 98) = Some 257
    ∧ merges t1 ≠ merges t2.
Proof.
  intros Hperm.
  (* the array strategies *)
  destruct (train_vectorized [97; 97; 97; 98] 258) as [t2| |] eqn:H2;
    [|vm_compute in H2; discriminate..].
  assert (merges t2 !! (256, 98) = Some 257) as E2.
  { vm_compute in H2. injection H2 as <-. vm_compute. reflexivity. }
  (* the first iteration of train *)
  set (ids0 := [97; 97; 97; 98]).
  destruct (train_choose_in_order_greatest reorder ids0 Hperm)
    as (p1 & Hp1 & Hin1 & Hmax1); [simpl; lia|].
  assert (p1 = (97, 97)) as ->.
  { specialize (Hmax1 (97, 97)).
    change (adjacent_pairs ids0) with [(97, 97); (97, 97); (97, 98)] in *.
    apply elem_of_cons in Hin1 as [Hin1|Hin1]; [done|].
    apply elem_of_cons in Hin1 as [Hin1|Hin1]; [done|].
    apply elem_of_cons in Hin1 as [Hin1|Hin1];
      [|by apply elem_of_nil in Hin1].
    subst p1. vm_compute in Hmax1. by destruct Hmax1. }
  assert (∀ b, 0 ≤ b < 256 → seed_vocab !! b = Some [b]) as Hseed.
  { intros b Hb. rewrite seed_vocab_lookup. by rewrite bool_decide_eq_true_2. }
  pose proof (train_iter_intro (train_choose_in_order reorder) merge 0
                (train_init ids0) 97 97 [97] [97] Hp1
                (Hseed 97 ltac:(lia)) (Hseed 97 ltac:(lia))) as Hiter1.
  cbn [train_init ts_ids ts_merges ts_vocab] in Hiter1.
  change (merge ids0 (97, 97) (256 + Z.of_nat 0)) with [256; 97; 98] in Hiter1.
  change (256 + Z.of_nat 0) with 256 in Hiter1.
  change ([97] ++ [97]) with [97; 97] in Hiter1.
  set (st1 := TrainState [256; 97; 98] (<[(97, 97) := 256]> ∅)
                (<[256 := [97; 97]]> seed_vocab)) in *.
  (* the second *)
  destruct (train_choose_in_order_greatest reorder (ts_ids st1) Hperm)
    as (p2 & Hp2 & Hin2 & _); [simpl; lia|].
  assert (ts_vocab st1 !! 256 = Some [97; 97]) as H256
    by apply lookup_insert_eq.
  assert (∀ b, 0 ≤ b < 256 → ts_vocab st1 !! b = Some [b]) as Hseed1.
  { intros b Hb. cbn [st1 ts_vocab]. rewrite lookup_insert_ne by lia.
    by apply Hseed. }
  assert (∃ l r, ts_vocab st1 !! p2.1 = Some l ∧ ts_vocab st1 !! p2.2 = Some r
                 ∧ (p2 = (256, 97) ∨ p2 = (97, 98))) as (l & r & Hl & Hr & Hcase).
  { change (adjacent_pairs (ts_ids st1)) with [(256, 97); (97, 98)] in Hin2.
    apply elem_of_cons in Hin2 as [->|Hin2].
    - exists [97; 97], [97]. split; [done|]. split; [|by left].
      apply Hseed1. simpl. lia.
    - apply elem_of_cons in Hin2 as [->|Hin2]; [|by apply elem_of_nil in Hin2].
      exists [97], [98]. split; [apply Hseed1; simpl; lia|].
      split; [apply Hseed1; simpl; lia|by right]. }
  destruct p2 as [L R]. cbn [fst snd] in Hl, Hr.
  pose proof (train_iter_intro (train_choose_in_order reorder) merge 1
                st1 L R l r Hp2 Hl Hr) as Hiter2.
  eexists _, t2.
  split.
  { unfold train_in_order, train_with.
    change (258 <? 256) with false. cbn iota.
    change (Utf8.encode ids0) with (Ok ids0).
    cbn [mbind result_bind].
    change (Z.to_nat (258 - 256)) with 2%nat. cbn [train_loop].
    rewrite Hiter1. cbn [mbind result_bind]. rewrite Hiter2.
    cbn [mbind result_bind]. reflexivity. }
  split; [done|].
  split.
  { intros t3 H3. apply train_gpu_vectorized in H3. unfold ids0 in H3.
    congruence. }
  cbn [merges ts_merges st1]. change (256 + Z.of_nat 1) with 257.
  assert ((<[(L, R) := 257]> (<[(97, 97) := 256]> (∅ : gmap (Z * Z) Z)))
            !! (256, 98) = None) as E1.
  { rewrite !lookup_insert_ne; [apply lookup_empty|done|].
    destruct Hcase as [[= -> ->]|[= -> ->]]; done. }
  split.
  { destruct Hcase as [[= -> ->]|[= -> ->]]; [left|right];
      apply lookup_insert_eq. }
  split; [done|]. split; [done|].
  intros Heq. rewrite Heq in E1. congruence.
Qed.

Lemma train_differs_from_array_strategies_witness :
  ∃ t1 t2,
    train [97; 97; 97; 98] 258 = Ok t1
    ∧ train_vectorized [97; 97; 97; 98] 258 = Ok t2
    ∧ (∀ t3, train_gpu [97; 97; 97; 98] 258 = Ok t3 → t3 = t2)
    ∧ (merges t1 !! (256, 97) = Some 257 ∨ merges t1 !! (97, 98) = Some 257)
    ∧ merges t1 !! (256, 98) = None
    ∧ merges t2 !! (256, 98) = Some 257
    ∧ merges t1 ≠ merges t2.
Proof.
  apply (train_differs_from_array_strategies (λ l, l)). done.
Defined.

(** ** What a replacement leaves in the sequence *)

Lemma adjacent_pairs_cons_any a (l : list Z) :
  adjacent_pairs (a :: l)
  = match l with [] => [] | h :: _ => (a, h) :: adjacent_pairs l end.
Proof. by destruct l. Qed.

Lemma adjacent_pairs_elem (p : Z * Z) (ids : list Z) :
  p ∈ adjacent_pairs ids → p.1 ∈ ids ∧ p.2 ∈ ids.
Proof.
  induction ids as [|a ids IH]; [by intros H; apply elem_of_nil in H|].
  rewrite adjacent_pairs_cons_any. destruct ids as [|b rest].
  - by intros H; apply elem_of_nil in H.
  - intros H. apply elem_of_cons in H as [->|H]; simpl.
    + split; [apply list_elem_of_here|apply list_elem_of_further, list_elem_of_here].
    + destruct (IH H). split; by apply list_elem_of_further.
Qed.

Lemma adjacent_pairs_head (q : Z * Z) (x : Z) (l : list Z) :
  q ∈ adjacent_pairs (x :: l) → q.1 = x ∨ q ∈ adjacent_pairs l.
Proof.
  rewrite adjacent_pairs_cons_any. destruct l as [|h l].
  - by intros H; apply elem_of_nil in H.
  - intros H. apply elem_of_cons in H as [->|H]; [by left|by right].
Qed.

Lemma adjacent_pairs_tail (q : Z * Z) (x : Z) (l : list Z) :
  q ∈ adjacent_pairs l → q ∈ adjacent_pairs (x :: l).
Proof.
  rewrite (adjacent_pairs_cons_any x l). destruct l as [|h l]; [done|].
  apply list_elem_of_further.
Qed.

(** *** [merge] *)

Lemma merge_elem ids pair idx x :
  x ∈ merge ids pair idx → x = idx ∨ x ∈ ids.
Proof.
  induction ids as [| a | a b rest IH1 IH2] using scan_ind; [by right..|].
  rewrite merge_cons2.
  destruct (bool_decide (a = pair.1) && bool_decide (b = pair.2)); intros H.
  - apply elem_of_cons in H as [->|H]; [by left|].
    destruct (IH1 H) as [?|?]; [by left|right].
    by do 2 apply list_elem_of_further.
  - apply elem_of_cons in H as [->|H]; [right; apply list_elem_of_here|].
    destruct (IH2 H) as [?|?]; [by left|right]. by apply list_elem_of_further.
Qed.

Lemma merge_head b rest pair idx :
  ∃ h t, merge (b :: rest) pair idx = h :: t ∧ (h = idx ∨ h = b).
Proof.
  destruct rest as [|c rest]; [by exists b, []; auto|].
  rewrite merge_cons2.
  destruct (bool_decide (b = pair.1) && bool_decide (c = pair.2)); eauto.
Qed.

(** A pair of the merged sequence is a pair of the old one or holds the
    new id. *)
Lemma merge_pairs ids pair idx q :
  q ∈ adjacent_pairs (merge ids pair idx) →
  q.1 = idx ∨ q.2 = idx ∨ q ∈ adjacent_pairs ids.
Proof.
  induction ids as [| a | a b rest IH1 IH2] using scan_ind; [by auto..|].
  rewrite merge_cons2.
  destruct (bool_decide (a = pair.1) && bool_decide (b = pair.2)); intros H.
  - apply adjacent_pairs_head in H as [?|H]; [by left|].
    destruct (IH1 H) as [?|[?|?]]; [by left|by right; left|].
    right; right. by do 2 apply adjacent_pairs_tail.
  - destruct (merge_head b rest pair idx) as (h & t & Hm & Hh).
    rewrite Hm, adjacent_pairs_cons in H.
    apply elem_of_cons in H as [->|H].
    + destruct Hh as [->| ->]; [by right; left|].
      right; right. rewrite adjacent_pairs_cons. apply list_elem_of_here.
    + rewrite <- Hm in H. destruct (IH2 H) as [?|[?|?]];
        [by left|by right; left|].
      right; right. by apply adjacent_pairs_tail.
Qed.

(** The merged pair itself no longer occurs, the new id being none of its
    two ids. *)
Lemma merge_gone ids pair idx :
  idx ≠ pair.1 → idx ≠ pair.2 →
  pair ∉ adjacent_pairs (merge ids pair idx).
Proof.
  intros H1 H2.
  induction ids as [| a | a b rest IH1 IH2] using scan_ind;
    [apply not_elem_of_nil..|].
  rewrite merge_cons2.
  destruct (bool_decide (a = pair.1) && bool_decide (b = pair.2)) eqn:E; intros H.
  - apply adjacent_pairs_head in H as [?|H]; [congruence|by apply IH1].
  - destruct (merge_head b rest pair idx) as (h & t & Hm & Hh).
    rewrite Hm, adjacent_pairs_cons in H.
    apply elem_of_cons in H as [Hp|H].
    + destruct Hh as [->| ->]; [by rewrite Hp in H2|].
      rewrite Hp in E. simpl in E. by rewrite !bool_decide_eq_true_2 in E.
    + rewrite <- Hm in H. by apply IH2.
Qed.

(** *** The mask-based removal *)

Lemma mask_scan_cons pair idx keep a rest :
  mask_scan pair idx keep (a :: rest)
  = (if keep
     then [if match rest with
              | b :: _ => bool_decide ((a, b) = pair)
              | [] => false
              end then idx else a]
     else [])
      ++ mask_scan pair idx
           (negb match rest with
                 | b :: _ => bool_decide ((a, b) = pair)
                 | [] => false
                 end) rest.
Proof. reflexivity. Qed.

Lemma mask_scan_elem pair idx keep ids x :
  x ∈ mask_scan pair idx keep ids → x = idx ∨ x ∈ ids.
Proof.
  revert keep. induction ids as [|a rest IH]; intros keep; [by right|].
  rewrite mask_scan_cons. intros H. apply elem_of_app in H as [H|H].
  - destruct keep; [|by apply elem_of_nil in H].
    apply list_elem_of_singleton in H.
    destruct (match rest with [] => false | _ => _ end);
      [by left|right; subst; apply list_elem_of_here].
  - destruct (IH _ H) as [?|?]; [by left|right; by apply list_elem_of_further].
Qed.

Lemma mask_scan_length_le pair idx keep ids :
  (length (mask_scan pair idx keep ids) ≤ length ids)%nat.
Proof.
  revert keep. induction ids as [|a rest IH]; intros keep; [done|].
  rewrite mask_scan_cons, length_app.
  specialize (IH (negb match rest with
                       | b :: _ => bool_decide ((a, b) = pair)
                       | [] => false
                       end)).
  destruct keep; simpl; lia.
Qed.

Lemma mask_scan_length_lt pair idx keep ids :
  pair ∈ adjacent_pairs ids →
  (length (mask_scan pair idx keep ids) < length ids)%nat.
Proof.
  revert keep. induction ids as [|a rest IH]; intros keep;
    [by intros H; apply elem_of_nil in H|].
  rewrite adjacent_pairs_cons_any. destruct rest as [|b rest];
    [by intros H; apply elem_of_nil in H|].
  intros H. rewrite mask_scan_cons, length_app.
  destruct (bool_decide ((a, b) = pair)) eqn:E.
  - cbn [negb]. rewrite (mask_scan_cons pair idx false b rest). cbn [app].
    pose proof (mask_scan_length_le pair idx
                  (negb match rest with
                        | b0 :: _ => bool_decide ((b, b0) = pair)
                        | [] => false
                        end) rest).
    destruct keep; simpl; lia.
  - apply bool_decide_eq_false in E.
    apply elem_of_cons in H as [->|H]; [done|].
    specialize (IH (negb false) H). destruct keep; simpl in *; lia.
Qed.

Lemma mask_scan_pairs_from pair idx ids keep prev q :
  (keep = false → prev = idx) →
  q ∈ adjacent_pairs (prev :: mask_scan pair idx keep ids) →
  q.1 = idx ∨ q.2 = idx ∨ q ∈ adjacent_pairs (prev :: ids).
Proof.
  revert keep prev. induction ids as [|a rest IH]; intros keep prev Hprev.
  - by intros H; apply elem_of_nil in H.
  - rewrite mask_scan_cons.
    set (hit := match rest with
                | b :: _ => bool_decide ((a, b) = pair)
                | [] => false
                end).
    destruct keep; cbn [app].
    + rewrite adjacent_pairs_cons. intros H.
      apply elem_of_cons in H as [->|H].
      * destruct hit; [by right; left|].
        right; right. rewrite adjacent_pairs_cons. apply list_elem_of_here.
      * apply IH in H; [|by destruct hit].
        destruct H as [?|[?|H]]; [by left|by right; left|].
        destruct hit.
        -- apply adjacent_pairs_head in H as [?|H]; [by left|].
           right; right. by do 2 apply adjacent_pairs_tail.
        -- right; right. by apply adjacent_pairs_tail.
    + intros H. apply IH in H; [|by intros _; apply Hprev].
      destruct H as [?|[?|H]]; [by left|by right; left|].
      apply adjacent_pairs_head in H as [H|H]; [left; by rewrite H, Hprev|].
      right; right. by do 2 apply adjacent_pairs_tail.
Qed.

Lemma mask_scan_gone_from pair idx ids keep prev :
  idx ≠ pair.1 → idx ≠ pair.2 →
  (keep = false → prev = idx) →
  (keep = true → ∀ a r, ids = a :: r → (prev, a) ≠ pair) →
  pair ∉ adjacent_pairs (prev :: mask_scan pair idx keep ids).
Proof.
  intros H1 H2. revert keep prev.
  induction ids as [|a rest IH]; intros keep prev Hprev Hfirst.
  - apply not_elem_of_nil.
  - rewrite mask_scan_cons.
    destruct keep; cbn [app].
    + rewrite adjacent_pairs_cons. intros H.
      apply elem_of_cons in H as [Hp|H].
      * destruct rest as [|b rest].
        -- by apply (Hfirst eq_refl a []).
        -- destruct (bool_decide ((a, b) = pair)); [by rewrite Hp in H2|].
           by apply (Hfirst eq_refl a (b :: rest)).
      * revert H. apply IH.
        -- destruct rest as [|b rest]; [done|].
           by destruct (bool_decide ((a, b) = pair)).
        -- intros Hk b r ->.
           destruct (bool_decide ((a, b) = pair)) eqn:E; [done|].
           by apply bool_decide_eq_false in E.
    + apply IH; [by intros _; apply Hprev|].
      intros _ b r _ Hp. rewrite (Hprev eq_refl) in Hp. by rewrite <- Hp in H1.
Qed.

Lemma mask_merge_elem ids pair idx x :
  x ∈ mask_merge ids pair idx → x = idx ∨ x ∈ ids.
Proof. rewrite mask_merge_scan. apply mask_scan_elem. Qed.

Lemma mask_merge_length_lt ids pair idx :
  pair ∈ adjacent_pairs ids →
  (length (mask_merge ids pair idx) < length ids)%nat.
Proof. rewrite mask_merge_scan. apply mask_scan_length_lt. Qed.

Lemma mask_merge_pairs ids pair idx q :
  q ∈ adjacent_pairs (mask_merge ids pair idx) →
  q.1 = idx ∨ q.2 = idx ∨ q ∈ adjacent_pairs ids.
Proof.
  rewrite mask_merge_scan. destruct ids as [|a rest]; [by auto|].
  rewrite mask_scan_cons. cbn [app].
  set (hit := match rest with
              | b :: _ => bool_decide ((a, b) = pair)
              | [] => false
              end).
  intros H. apply mask_scan_pairs_from in H; [|by destruct hit].
  destruct H as [?|[?|H]]; [by left|by right; left|].
  destruct hit; [|by right; right].
  apply adjacent_pairs_head in H as [?|H]; [by left|].
  right; right. by apply adjacent_pairs_tail.
Qed.

Lemma mask_merge_gone ids pair idx :
  idx ≠ pair.1 → idx ≠ pair.2 →
  pair ∉ adjacent_pairs (mask_merge ids pair idx).
Proof.
  intros H1 H2. rewrite mask_merge_scan. destruct ids as [|a rest];
    [apply not_elem_of_nil|].
  rewrite mask_scan_cons. cbn [app].
  apply mask_scan_gone_from; try done.
  - destruct rest as [|b rest]; [done|].
    by destruct (bool_decide ((a, b) = pair)).
  - intros Hk b r ->.
    destruct (bool_decide ((a, b) = pair)) eqn:E; [done|].
    by apply bool_decide_eq_false in E.
Qed.

(** ** More invariants of the training loop *)

Lemma train_init_merge_inv ids :
  Forall is_byte ids → merge_inv 0 (train_init ids).
Proof.
  intros Hb. split; cbn [train_init ts_ids ts_merges ts_vocab].
  - intros x Hx. rewrite Forall_forall in Hb. apply Hb in Hx.
    unfold is_byte in Hx. lia.
  - intros p id H. by rewrite lookup_empty in H.
  - intros p q id H. by rewrite lookup_empty in H.
  - intros id Hid. lia.
  - apply map_size_empty.
  - intros id bs. rewrite seed_vocab_lookup. case_bool_decide as Hid; [|done].
    intros [= <-]. split; [done|]. split; [|lia].
    constructor; [done|constructor].
Qed.

Section TrainerMore.
Variable choose : list Z → result (Z * Z).
Variable replace : list Z → Z * Z → Z → list Z.
Variable on_empty : error.

(** What the invariants need of the two strategy-specific steps. *)
Hypothesis choose_in : ∀ ids p, choose ids = Ok p → p ∈ adjacent_pairs ids.
Hypothesis choose_some : ∀ ids, (2 ≤ length ids)%nat → ∃ p, choose ids = Ok p.
Hypothesis choose_none :
  ∀ ids, (length ids < 2)%nat → choose ids = Raise on_empty.
Hypothesis replace_elem :
  ∀ ids p idx x, x ∈ replace ids p idx → x = idx ∨ x ∈ ids.
Hypothesis replace_pairs :
  ∀ ids p idx q, q ∈ adjacent_pairs (replace ids p idx) →
    q.1 = idx ∨ q.2 = idx ∨ q ∈ adjacent_pairs ids.
Hypothesis replace_gone :
  ∀ ids p idx, idx ≠ p.1 → idx ≠ p.2 →
    p ∉ adjacent_pairs (replace ids p idx).
Hypothesis replace_shorter :
  ∀ ids p idx, p ∈ adjacent_pairs ids →
    (length (replace ids p idx) < length ids)%nat.

Lemma train_iter_merge_inv i st st' :
  train_iter choose replace i st = Ok st' →
  merge_inv i st → merge_inv (S i) st'.
Proof.
  intros H [Hids Hkeys Hinj Honto Hsize Hent].
  apply train_iter_Ok in H as (L & R & l & r & Hch & HL & HR & ->).
  pose proof (choose_in _ _ Hch) as Hin.
  destruct (adjacent_pairs_elem _ _ Hin) as [HLin HRin]. simpl in HLin, HRin.
  apply Hids in HLin, HRin.
  assert (ts_merges st !! (L, R) = None) as Hnew.
  { destruct (ts_merges st !! (L, R)) as [id|] eqn:E; [|done].
    by destruct (Hkeys _ _ E) as [Hout _]. }
  split; cbn [ts_ids ts_merges ts_vocab].
  - intros x Hx. apply replace_elem in Hx as [->|Hx]; [lia|].
    apply Hids in Hx. lia.
  - intros p id. rewrite lookup_insert. case_decide as E.
    + intros [= <-]. subst p. split; [|simpl; lia].
      apply replace_gone; simpl; lia.
    + intros Hp. destruct (Hkeys _ _ Hp) as (Hout & H1 & H2 & H3).
      split; [|lia]. intros Hq.
      apply replace_pairs in Hq as [?|[?|?]]; [lia|lia|done].
  - intros p q id. rewrite !lookup_insert.
    case_decide as Ep; case_decide as Eq; try congruence.
    + intros [= <-] Hq. destruct (Hkeys _ _ Hq) as (_ & _ & _ & ?). lia.
    + intros Hp [= <-]. destruct (Hkeys _ _ Hp) as (_ & _ & _ & ?). lia.
    + apply Hinj.
  - intros id Hid. destruct (decide (id = 256 + Z.of_nat i)) as [->|Hne].
    + exists (L, R). apply lookup_insert_eq.
    + destruct (Honto id) as [p Hp]; [lia|]. exists p.
      rewrite lookup_insert_ne; [done|]. intros <-. congruence.
  - rewrite map_size_insert_None by done. by rewrite Hsize.
  - intros id bs. rewrite lookup_insert. case_decide as E.
    + intros [= <-]. destruct (Hent _ _ HL) as (Hl & Hlb & _).
      destruct (Hent _ _ HR) as (Hr & Hrb & _).
      split; [by destruct l|]. split; [by apply Forall_app|].
      intros _. rewrite length_app. destruct l, r; simpl; try done; lia.
    + apply Hent.
Qed.

Lemma train_loop_merge_inv n i st st' :
  train_loop choose replace n i st = Ok st' →
  merge_inv i st → merge_inv (i + n) st'.
Proof.
  revert i st. induction n as [|n IH]; intros i st; simpl.
  - intros [= <-] Hinv. by rewrite Nat.add_0_r.
  - intros H Hinv. apply bind_Ok in H as (st1 & Hiter & H).
    rewrite <- Nat.add_succ_comm. apply (IH _ st1); [done|].
    by eapply train_iter_merge_inv.
Qed.

(** An iteration fails only for want of a pair: the two vocabulary
    lookups always succeed. *)
Lemma train_iter_outcome i st :
  train_inv i st → merge_inv i st →
  ((2 ≤ length (ts_ids st))%nat
   ∧ ∃ st', train_iter choose replace i st = Ok st'
            ∧ (length (ts_ids st') < length (ts_ids st))%nat)
  ∨ ((length (ts_ids st) < 2)%nat
     ∧ train_iter choose replace i st = Raise on_empty).
Proof.
  intros [Hdom _ _ _] [Hids _ _ _ _ _].
  destruct (decide (2 ≤ length (ts_ids st))%nat) as [Hlen|Hlen].
  - left. split; [done|].
    destruct (choose_some _ Hlen) as [[L R] Hch].
    pose proof (choose_in _ _ Hch) as Hin.
    destruct (adjacent_pairs_elem _ _ Hin) as [HLin HRin]. simpl in HLin, HRin.
    apply Hids, Hdom in HLin as [l HL]. apply Hids, Hdom in HRin as [r HR].
    unfold train_iter. rewrite Hch. simpl. unfold vocab_get.
    rewrite HL, HR. simpl. eexists. split; [done|]. simpl.
    by apply replace_shorter.
  - right. split; [lia|]. unfold train_iter.
    by rewrite choose_none by lia.
Qed.

Lemma train_loop_outcome n i st :
  train_inv i st → merge_inv i st →
  (∃ st', train_loop choose replace n i st = Ok st')
  ∨ train_loop choose replace n i st = Raise on_empty.
Proof.
  revert i st. induction n as [|n IH]; intros i st Hinv Hminv; simpl.
  - left. by eexists.
  - destruct (train_iter_outcome i st Hinv Hminv)
      as [(_ & st1 & Hiter & _)|[_ Hiter]]; rewrite Hiter; simpl; [|by right].
    apply IH.
    + by destruct (train_iter_inv _ _ _ _ _ Hiter Hinv).
    + by eapply train_iter_merge_inv.
Qed.

(** With at least as many iterations to run as there are tokens, the
    loop runs out of pairs. *)
Lemma train_loop_too_long n i st :
  train_inv i st → merge_inv i st →
  (1 ≤ n)%nat → (length (ts_ids st) ≤ n)%nat →
  train_loop choose replace n i st = Raise on_empty.
Proof.
  revert i st. induction n as [|n IH]; intros i st Hinv Hminv Hn Hlen; [lia|].
  simpl.
  destruct (train_iter_outcome i st Hinv Hminv)
    as [(H2 & st1 & Hiter & Hshort)|[_ Hiter]]; rewrite Hiter; simpl; [|done].
  apply IH; [| |lia|lia].
  - by destruct (train_iter_inv _ _ _ _ _ Hiter Hinv).
  - by eapply train_iter_merge_inv.
Qed.

Lemma train_with_outcome text vocab_size :
  (vocab_size < 256 →
   train_with choose replace text vocab_size = Raise AssertionError)
  ∧ (256 ≤ vocab_size → ¬ Forall Utf8.is_scalar text →
     train_with choose replace text vocab_size = Raise UnicodeEncodeError)
  ∧ (256 ≤ vocab_size → Forall Utf8.is_scalar text →
     (∃ tok, train_with choose replace text vocab_size = Ok tok)
     ∨ train_with choose replace text vocab_size = Raise on_empty).
Proof.
  unfold train_with. split; [|split].
  - intros H. by destruct (Z.ltb_spec vocab_size 256); [|lia].
  - intros H Hns. destruct (Z.ltb_spec vocab_size 256); [lia|].
    destruct (utf8_encode_result text) as [->|[bs Hbs]]; [done|].
    exfalso. apply Hns, utf8_encode_scalar. by exists bs.
  - intros H Hs. destruct (Z.ltb_spec vocab_size 256); [lia|].
    apply utf8_encode_scalar in Hs as [ids Hids]. rewrite Hids. simpl.
    destruct (train_loop_outcome (Z.to_nat (vocab_size - 256)) 0 (train_init ids))
      as [[st ->]| ->]; simpl.
    + apply train_init_inv.
    + apply train_init_merge_inv. by eapply utf8_encode_bytes.
    + left. by eexists.
    + by right.
Qed.

Lemma train_with_too_long text vocab_size ids :
  Utf8.encode text = Ok ids →
  256 < vocab_size → Z.of_nat (length ids) ≤ vocab_size - 256 →
  train_with choose replace text vocab_size = Raise on_empty.
Proof.
  intros Hids Hvs Hlen. unfold train_with.
  destruct (Z.ltb_spec vocab_size 256); [lia|]. rewrite Hids. simpl.
  rewrite train_loop_too_long; [done| | |lia|cbn [train_init ts_ids]; lia].
  - apply train_init_inv.
  - apply train_init_merge_inv. by eapply utf8_encode_bytes.
Qed.

Lemma train_with_merge_inv text vocab_size tok :
  train_with choose replace text vocab_size = Ok tok →
  ∃ st, merge_inv (Z.to_nat (vocab_size - 256)) st
        ∧ tok = Tokenizer (ts_merges st) (ts_vocab st).
Proof.
  intros H. apply train_with_Ok in H as (Hvs & ids & st & Henc & Hrun & ->).
  exists st. split; [|done].
  apply (train_loop_merge_inv _ 0 (train_init ids)); [done|].
  apply train_init_merge_inv. by eapply utf8_encode_bytes.
Qed.
End TrainerMore.

(** ** The invariants, strategy by strategy *)

Lemma train_choose_in ids p :
  train_choose ids = Ok p → p ∈ adjacent_pairs ids.
Proof.
  unfold train_choose, py_max.
  destruct ((get_stats ids).*1) as [|k ks] eqn:Ekeys; [done|].
  intros [= <-]. apply get_stats_keys. rewrite Ekeys.
  destruct (py_max_from_split (stats_get (get_stats ids)) k ks)
    as (k1 & k2 & Heq & _).
  rewrite Heq. apply elem_of_app. right. apply list_elem_of_here.
Qed.

Lemma train_choose_some ids :
  (2 ≤ length ids)%nat → ∃ p, train_choose ids = Ok p.
Proof.
  intros Hlen. unfold train_choose, py_max.
  destruct (get_stats ids) as [|e rest] eqn:E; [|by eexists].
  apply get_stats_nil_iff in E. lia.
Qed.

Lemma train_choose_none ids :
  (length ids < 2)%nat → train_choose ids = Raise ValueError.
Proof. intros H. by apply train_choose_empty, get_stats_nil_iff. Qed.

Lemma array_choose_in e ids p :
  array_choose e ids = Ok p → p ∈ adjacent_pairs ids.
Proof. intros H. by apply array_choose_least in H as [? _]. Qed.

Lemma array_choose_some e ids :
  (2 ≤ length ids)%nat → ∃ p, array_choose e ids = Ok p.
Proof.
  intros Hlen. rewrite array_choose_py_max.
  destruct (np_unique_counts (np_pairs ids)) as [|x rest] eqn:E; [|by eexists].
  apply np_unique_counts_nil_iff in E. lia.
Qed.

Lemma array_choose_none e ids :
  (length ids < 2)%nat → array_choose e ids = Raise e.
Proof. intros H. by apply array_choose_empty, np_unique_counts_nil_iff. Qed.

(** Discharges what the generic lemmas ask of a strategy. *)
Ltac strategy_facts :=
  first [ exact train_choose_in | exact train_choose_some
        | exact train_choose_none | exact (array_choose_in _)
        | exact (array_choose_some _) | exact (array_choose_none _)
        | exact merge_elem | exact merge_pairs | exact merge_gone
        | exact merge_length_lt | exact mask_merge_elem
        | exact mask_merge_pairs | exact mask_merge_gone
        | exact mask_merge_length_lt ].

(** *** [train_gpu], errors included *)

Lemma vectorized_raise_gpu n i st :
  train_inv i st → merge_inv i st →
  train_loop (array_choose ValueError) mask_merge n i st = Raise ValueError →
  array_picks n i (ts_ids st) = Raise IndexError.
Proof.
  revert i st. induction n as [|n IH]; intros i st Hinv Hminv; [done|].
  cbn [train_loop array_picks].
  destruct (train_iter_outcome (array_choose ValueError) mask_merge ValueError
              ltac:(strategy_facts) ltac:(strategy_facts) ltac:(strategy_facts)
              ltac:(strategy_facts) i st Hinv Hminv)
    as [(_ & st1 & Hiter & _)|[Hlen _]].
  - rewrite Hiter. cbn [mbind result_bind]. intros Hrest.
    assert (train_inv (S i) st1) as Hinv1
      by by destruct (train_iter_inv _ _ _ _ _ Hiter Hinv).
    assert (merge_inv (S i) st1) as Hminv1.
    { eapply (train_iter_merge_inv (array_choose ValueError) mask_merge);
        [strategy_facts..|exact Hiter|exact Hminv]. }
    specialize (IH _ _ Hinv1 Hminv1 Hrest).
    apply train_iter_Ok in Hiter as (L & R & l & r & Hch & _ & _ & ->).
    rewrite (array_choose_Ok _ IndexError _ _ Hch). cbn [mbind result_bind].
    rewrite (Z.add_comm (Z.of_nat i) 256). cbn [ts_ids] in IH.
    by rewrite IH.
  - intros _. by rewrite array_choose_none.
Qed.

Lemma train_vectorized_outcome text vocab_size :
  (vocab_size < 256 → train_vectorized text vocab_size = Raise AssertionError)
  ∧ (256 ≤ vocab_size → ¬ Forall Utf8.is_scalar text →
     train_vectorized text vocab_size = Raise UnicodeEncodeError)
  ∧ (256 ≤ vocab_size → Forall Utf8.is_scalar text →
     (∃ tok, train_vectorized text vocab_size = Ok tok)
     ∨ train_vectorized text vocab_size = Raise ValueError).
Proof.
  apply (train_with_outcome (array_choose ValueError) mask_merge ValueError);
    strategy_facts.
Qed.

Lemma train_outcome text vocab_size :
  (vocab_size < 256 → train text vocab_size = Raise AssertionError)
  ∧ (256 ≤ vocab_size → ¬ Forall Utf8.is_scalar text →
     train text vocab_size = Raise UnicodeEncodeError)
  ∧ (256 ≤ vocab_size → Forall Utf8.is_scalar text →
     (∃ tok, train text vocab_size = Ok tok)
     ∨ train text vocab_size = Raise ValueError).
Proof.
  apply (train_with_outcome train_choose merge ValueError); strategy_facts.
Qed.

(** Once its tensors are created, [train_gpu] goes the way of
    [train_vectorized] on every input; where that one raises the
    [ValueError] of an empty [argmax], the model of torch's [argmax]
    raises an [IndexError]. *)
Lemma train_gpu_as_vectorized text vocab_size :
  train_gpu text vocab_size =
  match train_vectorized text vocab_size with
  | Raise ValueError => Raise IndexError
  | r => r
  end.
Proof.
  destruct (train_vectorized_outcome text vocab_size) as (Hlow & Hbad & Hgood).
  destruct (Z.lt_ge_cases vocab_size 256) as [Hvs|Hvs].
  { rewrite (Hlow Hvs). unfold train_gpu.
    by destruct (Z.ltb_spec vocab_size 256); [|lia]. }
  destruct (utf8_encode_result text) as [Henc|[ids Henc]].
  { rewrite Hbad; [|done|].
    - unfold train_gpu. destruct (Z.ltb_spec vocab_size 256); [lia|].
      by rewrite Henc.
    - intros Hs. apply utf8_encode_scalar in Hs as [bs Hbs]. congruence. }
  destruct Hgood as [[tok Htok]|Hraise]; [done|apply utf8_encode_scalar; eauto| |].
  - rewrite Htok. by apply train_gpu_vectorized.
  - rewrite Hraise. unfold train_gpu.
    destruct (Z.ltb_spec vocab_size 256); [lia|]. rewrite Henc.
    cbn [mbind result_bind]. rewrite gpu_loop_replicate.
    rewrite (vectorized_raise_gpu _ 0 (train_init ids)); [done| | |].
    + apply train_init_inv.
    + apply train_init_merge_inv. by eapply utf8_encode_bytes.
    + unfold train_vectorized, train_with in Hraise.
      destruct (Z.ltb_spec vocab_size 256); [lia|]. rewrite Henc in Hraise.
      cbn [mbind result_bind] in Hraise.
      by destruct (train_loop _ _ _ _ _) as [st|e|]; simpl in Hraise;
        [|injection Hraise as ->|].
Qed.

(** ** Further properties of training *)

(** The state a completed run ends in, whatever the strategy. *)
Lemma train_by_final s text vocab_size tok :
  train_by s text vocab_size = Ok tok →
  256 ≤ vocab_size
  ∧ ∃ st, train_inv (Z.to_nat (vocab_size - 256)) st
          ∧ merge_inv (Z.to_nat (vocab_size - 256)) st
          ∧ tok = Tokenizer (ts_merges st) (ts_vocab st).
Proof.
  assert (∀ choose replace,
    (∀ ids p, choose ids = Ok p → p ∈ adjacent_pairs ids) →
    (∀ ids p idx x, x ∈ replace ids p idx → x = idx ∨ x ∈ ids) →
    (∀ ids p idx q, q ∈ adjacent_pairs (replace ids p idx) →
       q.1 = idx ∨ q.2 = idx ∨ q ∈ adjacent_pairs ids) →
    (∀ ids p idx, idx ≠ p.1 → idx ≠ p.2 →
       p ∉ adjacent_pairs (replace ids p idx)) →
    train_with choose replace text vocab_size = Ok tok →
    256 ≤ vocab_size
    ∧ ∃ st, train_inv (Z.to_nat (vocab_size - 256)) st
            ∧ merge_inv (Z.to_nat (vocab_size - 256)) st
            ∧ tok = Tokenizer (ts_merges st) (ts_vocab st)) as Hgen.
  { intros choose replace H1 H2 H3 H4 H.
    apply train_with_Ok in H as (Hvs & ids & st & Henc & Hrun & ->).
    split; [done|]. exists st. split; [|split; [|done]].
    - by destruct (train_loop_inv _ _ _ _ _ _ Hrun (train_init_inv ids)).
    - apply (train_loop_merge_inv choose replace H1 H2 H3 H4 _ 0 (train_init ids));
        [done|].
      apply train_init_merge_inv. by eapply utf8_encode_bytes. }
  destruct s; simpl; intros H.
  - apply (Hgen train_choose merge); [strategy_facts..|done].
  - apply (Hgen (array_choose ValueError) mask_merge); [strategy_facts..|done].
  - apply train_gpu_vectorized in H.
    apply (Hgen (array_choose ValueError) mask_merge); [strategy_facts..|done].
Qed.

(** X1: a completed run of any strategy leaves a merge table of exactly
    [vocab_size - 256] pairs, mapped one-to-one onto the ids
    [256 .. vocab_size - 1]; the two ids of a pair are smaller than the
    id the pair is given. *)
Theorem merge_table_ids (s : strategy) (text : list Z) (vocab_size : Z)
    (tok : tokenizer) :
  train_by s text vocab_size = Ok tok →
  size (merges tok) = Z.to_nat (vocab_size - 256)
  ∧ (∀ p id, merges tok !! p = Some id →
       256 ≤ id < vocab_size ∧ 0 ≤ p.1 < id ∧ 0 ≤ p.2 < id)
  ∧ (∀ p q id, merges tok !! p = Some id → merges tok !! q = Some id → p = q)
  ∧ (∀ id, 256 ≤ id < vocab_size → ∃ p, merges tok !! p = Some id).
Proof.
  intros H. apply train_by_final in H as (Hvs & st & _ & Hm & ->).
  destruct Hm as [_ Hkeys Hinj Honto Hsize _]. cbn [merges].
  split; [done|]. split; [|split; [done|]].
  - intros p id Hp. destruct (Hkeys _ _ Hp) as (_ & ? & ? & ?). lia.
  - intros id Hid. apply Honto. lia.
Qed.

Lemma merge_table_ids_witness :
  size (merges scenario_tokenizer) = Z.to_nat (259 - 256)
  ∧ (∀ p id, merges scenario_tokenizer !! p = Some id →
       256 ≤ id < 259 ∧ 0 ≤ p.1 < id ∧ 0 ≤ p.2 < id)
  ∧ (∀ p q id, merges scenario_tokenizer !! p = Some id →
       merges scenario_tokenizer !! q = Some id → p = q)
  ∧ (∀ id, 256 ≤ id < 259 → ∃ p, merges scenario_tokenizer !! p = Some id).
Proof.
  apply (merge_table_ids Sequential scenario_text 259 scenario_tokenizer).
  exact scenario_trained.
Defined.

(** X2: after a completed run of any strategy the keys of the vocabulary
    are exactly the ids [0 .. vocab_size - 1]; every entry is a non-empty
    sequence of bytes, and the entry of a merged id has at least two
    bytes. *)
Theorem vocabulary_entries (s : strategy) (text : list Z) (vocab_size : Z)
    (tok : tokenizer) :
  train_by s text vocab_size = Ok tok →
  (∀ id, is_Some (vocab tok !! id) ↔ 0 ≤ id < vocab_size)
  ∧ (∀ id bs, vocab tok !! id = Some bs →
       bs ≠ [] ∧ Forall is_byte bs ∧ (256 ≤ id → (2 ≤ length bs)%nat)).
Proof.
  intros H. apply train_by_final in H as (Hvs & st & Hi & Hm & ->).
  destruct Hi as [Hdom _ _ _]. destruct Hm as [_ _ _ _ _ Hent]. cbn [vocab].
  split; [|done]. intros id. rewrite Hdom. lia.
Qed.

Lemma vocabulary_entries_witness :
  (∀ id, is_Some (vocab scenario_tokenizer !! id) ↔ 0 ≤ id < 259)
  ∧ (∀ id bs, vocab scenario_tokenizer !! id = Some bs →
       bs ≠ [] ∧ Forall is_byte bs ∧ (256 ≤ id → (2 ≤ length bs)%nat)).
Proof.
  apply (vocabulary_entries Sequential scenario_text 259 scenario_tokenizer).
  exact scenario_trained.
Defined.

(** X3: what training can raise.  Each strategy raises [AssertionError]
    for a [vocab_size] below 256, before it looks at the text, and
    otherwise [UnicodeEncodeError] for a text that holds a surrogate:
    both happen before [train_gpu] creates its tensors.  On any other
    input [train] and [train_vectorized] return, or raise the
    [ValueError] of an empty [max]/[argmax]: the vocabulary lookups of
    their loops never raise [KeyError]. *)
Theorem training_outcome (s : strategy) (text : list Z) (vocab_size : Z) :
  (vocab_size < 256 → train_by s text vocab_size = Raise AssertionError)
  ∧ (256 ≤ vocab_size → ¬ Forall Utf8.is_scalar text →
     train_by s text vocab_size = Raise UnicodeEncodeError)
  ∧ (256 ≤ vocab_size → Forall Utf8.is_scalar text → s ≠ Gpu →
     (∃ tok, train_by s text vocab_size = Ok tok)
     ∨ train_by s text vocab_size = Raise ValueError).
Proof.
  destruct s; cbn [train_by].
  - destruct (train_outcome text vocab_size) as (H1 & H2 & H3). auto.
  - destruct (train_vectorized_outcome text vocab_size) as (H1 & H2 & H3). auto.
  - destruct (train_vectorized_outcome text vocab_size) as (H1 & H2 & H3).
    split; [|split; [|done]].
    + intros H. unfold train_gpu. by destruct (Z.ltb_spec vocab_size 256); [|lia].
    + intros H Hs. unfold train_gpu.
      destruct (Z.ltb_spec vocab_size 256); [lia|].
      destruct (utf8_encode_result text) as [->|[ids Henc]]; [done|].
      destruct Hs. apply utf8_encode_scalar. eauto.
Qed.

(** X4: with at least as many merges requested as the text has bytes
    (and at least one), no strategy completes: [train] and
    [train_vectorized] run out of pairs and raise [ValueError], and
    [train_gpu] returns nothing either. *)
Theorem training_too_many_merges (text : list Z) (vocab_size : Z) (ids : list Z) :
  Utf8.encode text = Ok ids →
  256 < vocab_size → Z.of_nat (length ids) ≤ vocab_size - 256 →
  train text vocab_size = Raise ValueError
  ∧ train_vectorized text vocab_size = Raise ValueError
  ∧ ∀ tok, train_gpu text vocab_size ≠ Ok tok.
Proof.
  intros Henc Hvs Hlen.
  assert (train_vectorized text vocab_size = Raise ValueError) as Hv.
  { apply (train_with_too_long (array_choose ValueError) mask_merge ValueError)
      with (ids := ids); first [strategy_facts|done]. }
  split; [|split; [done|]].
  - apply (train_with_too_long train_choose merge ValueError)
      with (ids := ids); first [strategy_facts|done].
  - intros tok Hg. apply train_gpu_vectorized in Hg. congruence.
Qed.

Lemma training_too_many_merges_witness :
  train [97; 98; 97; 98] 260 = Raise ValueError
  ∧ train_vectorized [97; 98; 97; 98] 260 = Raise ValueError
  ∧ ∀ tok, train_gpu [97; 98; 97; 98] 260 ≠ Ok tok.
Proof.
  apply (training_too_many_merges [97; 98; 97; 98] 260 [97; 98; 97; 98]);
    [reflexivity|lia|simpl; lia].
Defined.

(** X5: a run of [train_gpu] that completes returns the merge table and
    the vocabulary that [train_vectorized] returns on the same input,
    although it only records the pairs in [merge_pairs] while it loops,
    and builds the table (by the dict comprehension) and the vocabulary
    (by its second loop) afterwards. *)
Theorem train_gpu_refines_vectorized (text : list Z) (vocab_size : Z)
    (tok : tokenizer) :
  train_gpu text vocab_size = Ok tok →
  train_vectorized text vocab_size = Ok tok.
Proof. apply train_gpu_vectorized. Qed.

Lemma train_gpu_refines_vectorized_witness :
  train_vectorized [97; 97; 98; 97; 97] 258
  = Ok (Tokenizer (<[(98, 256) := 257]> (<[(97, 97) := 256]> ∅))
          (<[257 := [98; 97; 97]]> (<[256 := [97; 97]]> seed_vocab))).
Proof.
  apply (train_gpu_refines_vectorized [97; 97; 98; 97; 97] 258).
  vm_compute. reflexivity.
Defined.

(** X14: the pair an iteration selects.  On a sequence of at least two
    ids every strategy picks an adjacent pair, and one of the greatest
    count: [train] whatever the order in which its dict holds the keys,
    [train_vectorized] and [train_gpu] the lexicographically least of the
    pairs of that count (left id first, then right id). *)
Theorem selection_greatest_count
    (reorder : list ((Z * Z) * Z) → list ((Z * Z) * Z)) (ids : list Z) :
  (∀ l, reorder l ≡ₚ l) → (2 ≤ length ids)%nat →
  ∃ p a,
    train_choose_in_order reorder ids = Ok p
    ∧ (∀ e, array_choose e ids = Ok a)
    ∧ p ∈ adjacent_pairs ids ∧ a ∈ adjacent_pairs ids
    ∧ (∀ q, occurrences q (adjacent_pairs ids)
            ≤ occurrences p (adjacent_pairs ids))
    ∧ occurrences p (adjacent_pairs ids) = occurrences a (adjacent_pairs ids)
    ∧ (∀ q, q ∈ adjacent_pairs ids →
         occurrences q (adjacent_pairs ids) = occurrences a (adjacent_pairs ids) →
         q = a ∨ pair_lt a q).
Proof.
  intros Hperm Hlen.
  destruct (train_choose_in_order_greatest reorder ids Hperm Hlen)
    as (p & Hp & Hin & Hmax).
  destruct (array_choose_some ValueError ids Hlen) as [a Ha].
  destruct (array_choose_least _ _ _ Ha) as (Hina & Hmaxa & Hleast).
  exists p, a. split; [done|].
  split; [intros e; by apply (array_choose_Ok ValueError)|].
  split; [done|]. split; [done|]. split; [done|].
  split; [|done]. pose proof (Hmax a). pose proof (Hmaxa p). lia.
Qed.

Lemma selection_greatest_count_witness :
  ∃ p a,
    train_choose [99; 97; 98; 97; 98] = Ok p
    ∧ (∀ e, array_choose e [99; 97; 98; 97; 98] = Ok a)
    ∧ p ∈ adjacent_pairs [99; 97; 98; 97; 98]
    ∧ a ∈ adjacent_pairs [99; 97; 98; 97; 98]
    ∧ (∀ q, occurrences q (adjacent_pairs [99; 97; 98; 97; 98])
            ≤ occurrences p (adjacent_pairs [99; 97; 98; 97; 98]))
    ∧ occurrences p (adjacent_pairs [99; 97; 98; 97; 98])
      = occurrences a (adjacent_pairs [99; 97; 98; 97; 98])
    ∧ (∀ q, q ∈ adjacent_pairs [99; 97; 98; 97; 98] →
         occurrences q (adjacent_pairs [99; 97; 98; 97; 98])
         = occurrences a (adjacent_pairs [99; 97; 98; 97; 98]) →
         q = a ∨ pair_lt a q).
Proof.
  apply (selection_greatest_count (λ l, l) [99; 97; 98; 97; 98]);
    [done|simpl; lia].
Defined.

(** *** The sequence of [train] *)

Lemma join_vocab_weaken (v v' : gmap Z (list Z)) (ids bs : list Z) :
  v ⊆ v' → join_vocab v ids = Ok bs → join_vocab v' ids = Ok bs.
Proof.
  intros Hsub. revert bs. induction ids as [|x ids IH]; intros bs; [done|].
  cbn [join_vocab]. intros H. apply bind_Ok in H as (b & Hb & H).
  apply bind_Ok in H as (b' & Hb' & [= <-]).
  apply vocab_get_Ok in Hb.
  unfold vocab_get. rewrite (lookup_weaken _ _ _ _ Hb Hsub).
  cbn [mbind result_bind]. by rewrite (IH _ Hb').
Qed.

Lemma train_loop_stands_for n i st st' bs :
  train_loop train_choose merge n i st = Ok st' →
  train_inv i st →
  join_vocab (ts_vocab st) (ts_ids st) = Ok bs →
  join_vocab (ts_vocab st') (ts_ids st') = Ok bs
  ∧ (length (ts_ids st') + n ≤ length (ts_ids st))%nat.
Proof.
  revert i st. induction n as [|n IH]; intros i st; cbn [train_loop].
  - intros [= <-] _ Hj. split; [done|lia].
  - intros H Hinv Hj. apply bind_Ok in H as (st1 & Hiter & H).
    destruct (train_iter_inv _ _ _ _ _ Hiter Hinv) as (Hinv1 & _ & Hsub).
    pose proof (inv_learned _ _ Hinv1) as Hlearned.
    apply train_iter_Ok in Hiter as (L & R & l & r & Hch & _ & _ & Hst1).
    assert (join_vocab (ts_vocab st1) (ts_ids st1) = Ok bs) as Hj1.
    { rewrite Hst1 in Hlearned |- *. cbn [ts_ids ts_vocab ts_merges] in *.
      eapply join_vocab_merge; [exact Hlearned|apply lookup_insert_eq|].
      eapply join_vocab_weaken; [|exact Hj]. by rewrite Hst1 in Hsub. }
    destruct (IH _ _ H Hinv1 Hj1) as [Hfinal Hlen]. split; [done|].
    pose proof (merge_length_lt (ts_ids st) (L, R) (256 + Z.of_nat i)
                  (train_choose_in _ _ Hch)) as Hshort.
    rewrite Hst1 in Hlen. cbn [ts_ids] in Hlen. lia.
Qed.

(** X6: at every iteration of [train] the token sequence still stands
    for the bytes of the training text (joining the vocabulary entries of
    its ids gives them back), and it has lost at least one token per
    merge. *)
Theorem train_sequence_stands_for_text (text ids : list Z) (j : nat)
    (st : train_state) :
  Utf8.encode text = Ok ids →
  train_loop train_choose merge j 0 (train_init ids) = Ok st →
  join_vocab (ts_vocab st) (ts_ids st) = Ok ids
  ∧ (length (ts_ids st) + j ≤ length ids)%nat.
Proof.
  intros Henc Hrun.
  apply (train_loop_stands_for j 0 (train_init ids) st ids Hrun (train_init_inv ids)).
  cbn [train_init ts_vocab ts_ids]. apply join_vocab_bytes.
  - intros b Hb. rewrite seed_vocab_lookup. by rewrite bool_decide_eq_true_2.
  - by eapply utf8_encode_bytes.
Qed.

Lemma train_sequence_stands_for_text_witness :
  join_vocab (ts_vocab scenario_state) (ts_ids scenario_state) = Ok scenario_text
  ∧ (length (ts_ids scenario_state) + 3 ≤ length scenario_text)%nat.
Proof.
  apply (train_sequence_stands_for_text scenario_text scenario_text 3 scenario_state).
  - reflexivity.
  - vm_compute. reflexivity.
Defined.

(** X7: where the occurrences of the pair do not overlap, as is always
    the case when its two ids differ, the mask-based removal of
    [train_vectorized] and [train_gpu] gives what [merge] gives. *)
Theorem mask_merge_agrees (ids : list Z) (pair : Z * Z) (idx : Z) :
  pair.1 ≠ pair.2 ∨ no_overlap pair ids →
  mask_merge ids pair idx = merge ids pair idx.
Proof.
  intros [Hne|Hno]; apply mask_merge_no_overlap; [|done].
  destruct pair as [L R]. by apply no_overlap_distinct.
Qed.

Lemma mask_merge_agrees_witness :
  mask_merge [97; 98; 97; 98; 99] (97, 98) 256
  = merge [97; 98; 97; 98; 99] (97, 98) 256.
Proof.
  apply (mask_merge_agrees [97; 98; 97; 98; 99] (97, 98) 256).
  left. simpl. lia.
Defined.

(** ** Further properties of [encode] and [decode] *)

Lemma encode_loop_shape (fuel : nat) (m : gmap (Z * Z) Z) (ids out : list Z) :
  encode_loop fuel m ids = Ok out →
  (length out ≤ length ids)%nat
  ∧ (ids ≠ [] → out ≠ [])
  ∧ Forall (λ x, x ∈ ids ∨ ∃ p, m !! p = Some x) out
  ∧ Forall (λ q, m !! q = None) (adjacent_pairs out).
Proof.
  revert ids. induction fuel as [|fuel IH]; intros ids;
    rewrite encode_loop_unfold;
    destruct (Z.leb_spec 2 (Z.of_nat (length ids))) as [H2|H2]; try done.
  - intros [= <-]. split; [done|]. split; [done|]. split.
    + apply Forall_forall. by left.
    + rewrite adjacent_pairs_short by lia. constructor.
  - destruct (encode_pick_ok m ids) as (pair & -> & Hin & Hleast); [lia|].
    cbn [mbind result_bind]. destruct (m !! pair) as [idx|] eqn:Hpair.
    + intros Hrec. destruct (IH _ Hrec) as (Hlen & Hne & Hel & Hirr).
      pose proof (merge_length_le ids pair idx).
      split; [lia|]. split; [|split; [|done]].
      * intros Hids. apply Hne. intros Hm.
        pose proof (merge_length_pos ids pair idx Hids) as Hpos.
        rewrite Hm in Hpos. simpl in Hpos. lia.
      * eapply Forall_impl; [exact Hel|]. intros x [Hx|Hx]; [|by right].
        apply merge_elem in Hx as [->|Hx]; [right; by exists pair|by left].
    + intros [= <-]. split; [done|]. split; [done|]. split.
      * apply Forall_forall. by left.
      * apply Forall_forall. intros q Hq. specialize (Hleast q Hq).
        by destruct (m !! q).
  - intros [= <-]. split; [done|]. split; [done|]. split.
    + apply Forall_forall. by left.
    + rewrite adjacent_pairs_short by lia. constructor.
Qed.

(** X8: what [encode] returns is no longer than the bytes of the text
    and empty only for the empty text; each of its ids is a byte of the
    text or an id of the merge table; and no two adjacent ids of it form
    a key of the merge table. *)
Theorem encode_output_shape (tok : tokenizer) (text bs out : list Z) :
  Utf8.encode text = Ok bs →
  encode tok text = Ok out →
  (length out ≤ length bs)%nat
  ∧ (bs ≠ [] → out ≠ [])
  ∧ Forall (λ x, x ∈ bs ∨ ∃ p, merges tok !! p = Some x) out
  ∧ Forall (λ q, merges tok !! q = None) (adjacent_pairs out).
Proof.
  intros Henc. unfold encode. rewrite Henc. cbn [mbind result_bind].
  apply encode_loop_shape.
Qed.

Lemma encode_output_shape_witness :
  (length ([257; 256]%Z : list Z) ≤ length ([97; 98; 99; 97; 98]%Z : list Z))%nat
  ∧ ([97; 98; 99; 97; 98] ≠ [] → [257; 256] ≠ [])
  ∧ Forall (λ x, x ∈ [97; 98; 99; 97; 98]
                 ∨ ∃ p, merges abc_table !! p = Some x) [257; 256]
  ∧ Forall (λ q, merges abc_table !! q = None) (adjacent_pairs [257; 256]).
Proof.
  apply (encode_output_shape abc_table [97; 98; 99; 97; 98]);
    [reflexivity|vm_compute; reflexivity].
Defined.

(** X9: a text none of whose adjacent byte pairs is a key of the merge
    table (every text, when the table is empty) is encoded as its
    bytes. *)
Theorem encode_no_key_unchanged (tok : tokenizer) (text bs : list Z) :
  Utf8.encode text = Ok bs →
  Forall (λ q, merges tok !! q = None) (adjacent_pairs bs) →
  encode tok text = Ok bs.
Proof.
  intros Henc Hnone. unfold encode. rewrite Henc. cbn [mbind result_bind].
  destruct (length bs) as [|fuel] eqn:Hlen.
  { destruct bs; [done|discriminate]. }
  rewrite encode_loop_unfold.
  destruct (Z.leb_spec 2 (Z.of_nat (length bs))) as [H2|H2]; [|done].
  destruct (encode_pick_ok (merges tok) bs) as (pair & -> & Hin & _); [lia|].
  cbn [mbind result_bind]. rewrite Forall_forall in Hnone.
  by rewrite (Hnone pair Hin).
Qed.

Lemma encode_no_key_unchanged_witness :
  encode abc_table [98; 97; 8364] = Ok [98; 97; 226; 130; 172].
Proof.
  apply (encode_no_key_unchanged abc_table [98; 97; 8364]); [reflexivity|].
  repeat constructor.
Defined.

(** X10: [encode] raises nothing but [UnicodeEncodeError], and that
    exactly for a text that holds a code point which is no scalar value
    (a lone surrogate). *)
Theorem encode_rejects_surrogates (tok : tokenizer) (text : list Z) :
  (Forall Utf8.is_scalar text ↔ ∃ out, encode tok text = Ok out)
  ∧ (¬ Forall Utf8.is_scalar text ↔ encode tok text = Raise UnicodeEncodeError).
Proof.
  unfold encode. rewrite utf8_encode_scalar.
  destruct (utf8_encode_result text) as [Henc|[bs Henc]]; rewrite Henc;
    cbn [mbind result_bind].
  - split; [split; intros [? [=]]|].
    split; [done|]. intros _ [? [=]].
  - destruct (encode_loop_enough (length bs) (merges tok) bs) as [out Hout];
      [lia|]. rewrite Hout.
    split; [split; intros _; eauto|].
    split; [|done]. intros H. exfalso. apply H. eauto.
Qed.

(** X11: on the tokenizer of a completed run of any strategy every id
    that [encode] returns is below [vocab_size], hence a key of the
    vocabulary. *)
Theorem encode_ids_in_range (s : strategy) (text : list Z) (vocab_size : Z)
    (tok : tokenizer) (str out : list Z) :
  train_by s text vocab_size = Ok tok →
  encode tok str = Ok out →
  Forall (λ x, 0 ≤ x < vocab_size ∧ is_Some (vocab tok !! x)) out.
Proof.
  intros Htrain Henc.
  apply train_by_final in Htrain as (Hvs & st & Hi & Hm & ->).
  destruct Hi as [Hdom _ _ _]. destruct Hm as [_ Hkeys _ _ _ _].
  cbn [vocab merges] in *.
  assert (∀ x, 0 ≤ x < vocab_size →
            0 ≤ x < vocab_size ∧ is_Some (ts_vocab st !! x)) as Hok.
  { intros x Hx. split; [done|]. apply Hdom. lia. }
  unfold encode in Henc. apply bind_Ok in Henc as (bs & Hbs & Hloop).
  apply encode_loop_shape in Hloop as (_ & _ & Hel & _).
  apply utf8_encode_bytes in Hbs. rewrite Forall_forall in Hbs.
  eapply Forall_impl; [exact Hel|]. cbn beta. intros x [Hx|[p Hp]]; apply Hok.
  - apply Hbs in Hx. unfold is_byte in Hx. lia.
  - destruct (Hkeys _ _ Hp) as (_ & _ & _ & ?). lia.
Qed.

Lemma encode_ids_in_range_witness :
  Forall (λ x, 0 ≤ x < 259 ∧ is_Some (vocab scenario_tokenizer !! x))
    [258; 100; 258; 97; 99].
Proof.
  apply (encode_ids_in_range Sequential scenario_text 259 scenario_tokenizer
           scenario_text).
  - exact scenario_trained.
  - vm_compute. reflexivity.
Defined.

(** X12: on the tokenizer of a completed run of any strategy [encode] is
    injective: two texts with the same token sequence are the same
    text. *)
Theorem encode_injective (s : strategy) (text : list Z) (vocab_size : Z)
    (tok : tokenizer) (s1 s2 ids : list Z) :
  train_by s text vocab_size = Ok tok →
  encode tok s1 = Ok ids → encode tok s2 = Ok ids → s1 = s2.
Proof.
  intros Htrain H1 H2.
  apply train_by_consistent in Htrain as [Hseed Hlearned].
  assert (∀ t, encode tok t = Ok ids → decode tok ids = Ok t) as Hback.
  { intros t Ht.
    destruct (roundtrip_consistent tok t Hseed Hlearned) as (ids' & He & Hd).
    - apply (encode_rejects_surrogates tok t). by exists ids.
    - congruence. }
  apply Hback in H1, H2. congruence.
Qed.

Lemma encode_injective_witness : [97; 97; 98] = [97; 97; 98].
Proof.
  apply (encode_injective Sequential scenario_text 259 scenario_tokenizer
           [97; 97; 98] [97; 97; 98] [256; 98]).
  - exact scenario_trained.
  - vm_compute. reflexivity.
  - vm_compute. reflexivity.
Defined.

Lemma join_vocab_app (v : gmap Z (list Z)) (ids1 ids2 bs1 bs2 : list Z) :
  join_vocab v ids1 = Ok bs1 → join_vocab v ids2 = Ok bs2 →
  join_vocab v (ids1 ++ ids2) = Ok (bs1 ++ bs2).
Proof.
  revert bs1. induction ids1 as [|x ids1 IH]; intros bs1.
  - by intros [= <-].
  - cbn [join_vocab app]. intros H Hj2.
    apply bind_Ok in H as (b & Hb & H).
    apply bind_Ok in H as (b' & Hb' & [= <-]).
    rewrite Hb. cbn [mbind result_bind]. rewrite (IH _ Hb' Hj2).
    cbn [mbind result_bind]. by rewrite app_assoc.
Qed.

(** Well-formed bytes are decoded on their own, whatever follows. *)
Lemma utf8_decode_app text bs rest :
  Utf8.encode text = Ok bs →
  Utf8.decode (bs ++ rest) = text ++ Utf8.decode rest.
Proof.
  revert bs. induction text as [|c t IH]; intros bs; cbn [Utf8.encode].
  - by intros [= <-].
  - intros H. apply bind_Ok in H as (b & Hb & H).
    apply bind_Ok in H as (b' & Hb' & [= <-]).
    rewrite <- app_assoc, (utf8_decode_encode_cp c b _ Hb).
    cbn [app]. f_equal. by apply IH.
Qed.

(** X13: [decode] of a concatenation is the concatenation of the two
    decoded texts, provided the first one came out without a replacement
    character (its bytes end on a character boundary). *)
Theorem decode_app (tok : tokenizer) (ids1 ids2 t1 t2 : list Z) :
  decode tok ids1 = Ok t1 → Utf8.REPLACEMENT ∉ t1 →
  decode tok ids2 = Ok t2 →
  decode tok (ids1 ++ ids2) = Ok (t1 ++ t2).
Proof.
  unfold decode. intros H1 Hrep H2.
  apply bind_Ok in H1 as (bs1 & Hj1 & [= <-]).
  apply bind_Ok in H2 as (bs2 & Hj2 & [= <-]).
  rewrite (join_vocab_app _ _ _ _ _ Hj1 Hj2). cbn [mbind result_bind].
  f_equal. apply utf8_decode_app.
  by destruct (utf8_decode_replaced_or_wellformed bs1).
Qed.

Lemma decode_app_witness :
  decode scenario_tokenizer ([258; 100] ++ [226; 130; 172])
  = Ok ([97; 97; 97; 98; 100] ++ [8364]).
Proof.
  apply (decode_app scenario_tokenizer [258; 100] [226; 130; 172]).
  - vm_compute. reflexivity.
  - intros H. repeat (apply elem_of_cons in H as [H|H]; [discriminate|]).
    by apply elem_of_nil in H.
  - vm_compute. reflexivity.
Defined.

(** The condition is needed: cut inside the three bytes of U+20AC, the
    two halves decode to replacement characters, the whole to the
    character. *)
Example decode_app_inside_character :
  decode scenario_tokenizer [226] = Ok [Utf8.REPLACEMENT]
  ∧ decode scenario_tokenizer [130; 172]
    = Ok [Utf8.REPLACEMENT; Utf8.REPLACEMENT]
  ∧ decode scenario_tokenizer ([226] ++ [130; 172]) = Ok [8364].
Proof. repeat split; vm_compute; reflexivity. Qed.
